(** * Save-queue delivery worker of the knowledge-vault extension

    A shallow embedding of [extension/background/service-worker.ts] and of
    the declarations of [extension/shared/types.ts] it relies on, together
    with the properties of the delivery state machine: validation at
    submit, the in-flight guard, classification of failures, exponential
    backoff, terminal failure, discard, startup recovery and the state
    summary.

    The worker is single threaded, so its code runs in uninterrupted
    stretches between the points where it waits for the outside: the
    answer to a request, a timer, the pause of the recovery loop.  Each
    such stretch of the source is one function on an explicit [World]
    (session storage, the [processingIds] set, the attempts under way,
    pending timers, running recovery loops, the messages broadcast and the
    requests sent so far), and an interleaving of the worker with its
    environment is a list of timed events.  Reads and writes of session
    storage are taken as immediate, as the specification has them atomic.
    Strings stand for JavaScript strings, one character per code unit;
    JavaScript numbers that hold counts are [nat], times and delays in
    milliseconds are [Z]. *)

From stdpp Require Import gmap strings list pretty.
From Stdlib Require Import ZArith Lia.

Open Scope string_scope.
Open Scope list_scope.

(** ** shared/types.ts *)

Module CONFIG.
Definition MAX_RETRIES : nat := 3.
Definition INITIAL_RETRY_DELAY_MS : Z := 1000.
Definition MAX_RETRY_DELAY_MS : Z := 30000.
Definition MAX_QUEUE_SIZE : nat := 100.
Definition MIN_SELECTION_LENGTH : Z := 10.
Definition MAX_SELECTION_LENGTH : Z := 10000.
End CONFIG.

(** [SaveSnippetRequest["payload"]] *)
Record Payload := mkPayload {
  text : string;
  sourceUrl : string;
  sourceTitle : string;
  sourceDomain : string;
  selectionContext : option string
}.

Inductive Status := pending | saving | failed.

#[global] Instance Status_eq_dec : EqDecision Status.
Proof. solve_decision. Defined.

Record QueueItem := mkQueueItem {
  id : string;
  createdAt : Z;
  retryCount : nat;
  lastError : option string;
  status : Status;
  payload : Payload
}.

(** [SaveResultMessage["payload"]] *)
Module SaveResult.
Record t := mk {
  success : bool;
  snippetId : option string;
  error : option string;
  originalText : string;
  queueId : option string
}.
End SaveResult.

(** One element of [StateUpdateMessage["payload"].recentSaves]. *)
Module RecentSave.
Record t := mk {
  id : string;
  text : string;
  sourceDomain : string;
  status : Status
}.
End RecentSave.

(** [StateUpdateMessage["payload"]] *)
Module StateUpdate.
Record t := mk {
  pendingCount : nat;
  recentSaves : list RecentSave.t
}.
End StateUpdate.

(** [BackgroundMessage] *)
Inductive Message :=
  | SAVE_RESULT (p : SaveResult.t)
  | STATE_UPDATE (p : StateUpdate.t).

(** ** Values of the host platform *)

(** A thrown value.  Everything the worker can catch here is an instance of
    [Error]: the [TypeError] of a failed [fetch], the [AbortError] of an
    aborted one, the [SyntaxError] of [response.json()] and the [Error]
    the worker throws itself. *)
Module Error.
Record t := mk { name : string; message : string }.
End Error.

(** What [response.json()] yields: a rejection with the engine's
    [SyntaxError], or a JSON value other than [null], of which the worker
    reads [error] (failure path) and [id] (success path); both are absent
    when the value is not an object.  The value [null], on which these
    reads throw a [TypeError], is not among the answers of the remote store
    ([{id}] or [{error, httpStatus}]) and has no term here. *)
Inductive Body :=
  | NotJson (syntaxError : string)
  | Json (error : option string) (id : option string).

Module Response.
Record t := mk { status : nat; body : Body }.
(** [response.ok] of the Fetch API: the status is in 200..299. *)
Definition ok (r : t) : bool := (200 <=? status r)%nat && (status r <=? 299)%nat.
End Response.

(** How a [fetch] settles. *)
Inductive FetchResult :=
  | Resolved (r : Response.t)
  | Rejected (e : Error.t).

(** [String.prototype.includes] *)
Fixpoint includes (needle hay : string) {struct hay} : bool :=
  String.prefix needle hay ||
  match hay with
  | EmptyString => false
  | String _ hay' => includes needle hay'
  end.

(** JavaScript's [a || b] on an optional string: [undefined] and the empty
    string are falsy. *)
Definition or_else (a : option string) (b : string) : string :=
  match a with
  | Some s => if decide (s = "") then b else s
  | None => b
  end.

(** ** shared/storage.ts *)

Inductive StoreError := CapacityExceeded.

Abbreviation Queue := (list QueueItem).

(** Modelled from the spec: [getQueue] of shared/storage.ts, which is not
    among the sources; [listAll] of 4.2, the entries in insertion order. *)
Definition getQueue (q : Queue) : list QueueItem := q.

(** Modelled from the spec: the entry [enqueue] creates, with status
    pending and retryCount 0 (4.2). *)
Definition submitted (newId : string) (t : Z) (p : Payload) : QueueItem :=
  mkQueueItem newId t 0 None pending p.

(** Modelled from the spec: [enqueue] of shared/storage.ts, which is not
    among the sources.  4.2: creates and persists a new entry with status
    pending and retryCount 0, and fails with CapacityExceeded if the store
    already holds the configured maximum number of entries.  The fresh
    identifier and the capture timestamp come from the host. *)
Definition enqueue (newId : string) (t : Z) (p : Payload) (q : Queue)
    : StoreError + QueueItem * Queue :=
  if (CONFIG.MAX_QUEUE_SIZE <=? length q)%nat then inl CapacityExceeded
  else
    let item := submitted newId t p in
    inr (item, q ++ [item]).

(** Modelled from the spec: [dequeue] of shared/storage.ts, which is not
    among the sources; [dequeueRemove] of 4.2: permanently removes an
    entry, no-op if absent. *)
Definition dequeue (i : string) (q : Queue) : Queue :=
  filter (fun it => id it ≠ i) q.

(** Modelled from the spec: what [updateItemStatus] of shared/storage.ts,
    which is not among the sources, writes over the entry it names.  The
    worker itself never writes [retryCount], so the increment of 4.3
    ("retryable failure: retryCount += 1, status returns to pending") is
    placed here, on the write that returns an entry to pending with a
    failure reason; a write of failed leaves the count alone (section 8:
    "a 400 response transitions to failed immediately with retryCount
    unchanged").  [lastError] is set when a reason is given. *)
Definition written (st : Status) (err : option string) (it : QueueItem) : QueueItem :=
  mkQueueItem (id it) (createdAt it)
    (match st, err with
     | pending, Some _ => S (retryCount it)
     | _, _ => retryCount it
     end)
    (match err with Some e => Some e | None => lastError it end)
    st (payload it).

(** Modelled from the spec: [updateItemStatus] of shared/storage.ts, which
    is not among the sources; [updateStatus] of 4.2: mutates the named
    entry in place, no-op if the id no longer exists. *)
Definition updateItemStatus (i : string) (st : Status) (err : option string)
    (q : Queue) : Queue :=
  (fun it => if decide (id it = i) then written st err it else it) <$> q.

(** Modelled from the spec: [getPendingItems] of shared/storage.ts, which
    is not among the sources; [listPending] of 4.2, the subsequence of
    entries that are pending or failed. *)
Definition getPendingItems (q : Queue) : list QueueItem :=
  filter (fun it => status it = pending ∨ status it = failed) q.

(** ** background/service-worker.ts *)

(** The call site a delivery attempt comes from: [handleSaveSnippet],
    [retryQueueItem] or [processPendingOnStartup]. *)
Inductive Trigger := FromSubmit | FromRetry | FromStartup.

#[global] Instance Trigger_eq_dec : EqDecision Trigger.
Proof. solve_decision. Defined.

(** A POST to [/api/snippets] that [fetchWithRetry] sent. *)
Record Request := mkRequest {
  rq_time : Z;
  rq_item : QueueItem;
  rq_by : Trigger
}.

(** An invocation of [processQueueItem] suspended at [await fetchWithRetry]:
    the [item] it closed over and the time the request left. *)
Record Attempt := mkAttempt {
  att_item : QueueItem;
  att_start : Z
}.

(** An invocation of [processPendingOnStartup] suspended in its loop,
    either in the 500 ms pause before the head of [remaining] or in
    [await processQueueItem] of the item before it. *)
Inductive LoopPhase := Sleeping (wake : Z) | Awaiting (i : string).

Record Loop := mkLoop {
  phase : LoopPhase;
  remaining : list QueueItem
}.

Record World := mkWorld {
  queue : Queue;                  (* chrome.storage.session *)
  processingIds : gset string;    (* const processingIds = new Set<string>() *)
  inflight : list Attempt;
  timers : list (Z * string);     (* setTimeout(() => retryQueueItem(id), delay) *)
  loops : list Loop;
  broadcasts : list Message;      (* chrome.runtime.sendMessage, oldest first *)
  requests : list Request;        (* oldest first *)
  now : Z
}.

Definition set_queue (f : Queue → Queue) (w : World) : World :=
  mkWorld (f (queue w)) (processingIds w) (inflight w) (timers w) (loops w)
    (broadcasts w) (requests w) (now w).

Definition set_processingIds (f : gset string → gset string) (w : World) : World :=
  mkWorld (queue w) (f (processingIds w)) (inflight w) (timers w) (loops w)
    (broadcasts w) (requests w) (now w).

Definition set_inflight (f : list Attempt → list Attempt) (w : World) : World :=
  mkWorld (queue w) (processingIds w) (f (inflight w)) (timers w) (loops w)
    (broadcasts w) (requests w) (now w).

Definition set_timers (f : list (Z * string) → list (Z * string)) (w : World) : World :=
  mkWorld (queue w) (processingIds w) (inflight w) (f (timers w)) (loops w)
    (broadcasts w) (requests w) (now w).

Definition set_loops (f : list Loop → list Loop) (w : World) : World :=
  mkWorld (queue w) (processingIds w) (inflight w) (timers w) (f (loops w))
    (broadcasts w) (requests w) (now w).

Definition set_requests (f : list Request → list Request) (w : World) : World :=
  mkWorld (queue w) (processingIds w) (inflight w) (timers w) (loops w)
    (broadcasts w) (f (requests w)) (now w).

Definition set_now (t : Z) (w : World) : World :=
  mkWorld (queue w) (processingIds w) (inflight w) (timers w) (loops w)
    (broadcasts w) (requests w) t.

(** [broadcastMessage] *)
Definition broadcastMessage (m : Message) (w : World) : World :=
  mkWorld (queue w) (processingIds w) (inflight w) (timers w) (loops w)
    (broadcasts w ++ [m]) (requests w) (now w).

(** [queue.slice(-n)] *)
Definition slice_last {A} (n : nat) (l : list A) : list A :=
  drop (length l - n) l.

(** [handleSyncState] *)
Definition handleSyncState (q : Queue) : StateUpdate.t :=
  StateUpdate.mk
    (length (filter (fun it => status it = pending ∨ status it = saving) (getQueue q)))
    ((fun item =>
        RecentSave.mk (id item)
          (String.substring 0 100 (text (payload item)))
          (sourceDomain (payload item))
          (if decide (status item = saving) then pending else status item))
       <$> slice_last 10 (getQueue q)).

(** [isRetryableError] *)
Definition isRetryableError (e : Error.t) : bool :=
  if String.eqb (Error.name e) "AbortError" || includes "network" (Error.message e)
  then true
  else if includes "HTTP 5" (Error.message e) then true
  else false.

(** The backoff of [processQueueItem]:
    [Math.min(INITIAL_RETRY_DELAY_MS * Math.pow(2, retryCount), MAX_RETRY_DELAY_MS)].
    Doubles hold these powers of two exactly until they overflow to
    infinity, where the minimum is the cap as it is here. *)
Definition retryDelay (rc : nat) : Z :=
  Z.min (CONFIG.INITIAL_RETRY_DELAY_MS * 2 ^ Z.of_nat rc) CONFIG.MAX_RETRY_DELAY_MS.

(** The abort [fetchWithRetry] arms: [setTimeout(() => controller.abort(), 30000)]. *)
Definition FETCH_TIMEOUT_MS : Z := 30000.

(** The rejection of a [fetch] whose signal was aborted. *)
Definition abortError : Error.t :=
  Error.mk "AbortError" "signal is aborted without reason".

(** [processQueueItem], from its entry to [await fetchWithRetry]: the guard
    on [processingIds], the mark as saving and the request.  The flag tells
    whether an attempt was started. *)
Definition processQueueItem_begin (by_ : Trigger) (item : QueueItem) (w : World)
    : bool * World :=
  if decide (id item ∈ processingIds w) then (false, w)
  else
    (true,
     set_requests (fun rs => rs ++ [mkRequest (now w) item by_])
       (set_inflight (fun l => l ++ [mkAttempt item (now w)])
          (set_queue (updateItemStatus (id item) saving None)
             (set_processingIds (fun s => {[id item]} ∪ s) w)))).

(** What [processQueueItem] has in hand after [await fetchWithRetry] and the
    reading of the body: the created snippet, or the value its [catch]
    receives. *)
Definition attemptOutcome (res : FetchResult) : Error.t + option string :=
  match res with
  | Rejected e => inl e
  | Resolved r =>
      if Response.ok r then
        match Response.body r with
        | Json _ sid => inr sid
        | NotJson m => inl (Error.mk "SyntaxError" m)
        end
      else
        let error :=
          match Response.body r with
          | Json e _ => e
          | NotJson _ => Some "Unknown error"
          end in
        inl (Error.mk "Error" (or_else error ("HTTP " +:+ pretty (Response.status r))))
  end.

(** The loops suspended in [await processQueueItem] of entry [i] go on
    to their next item, or end. *)
Definition resumeLoops (i : string) (t : Z) (ls : list Loop) : list Loop :=
  omap (fun l =>
          match phase l with
          | Awaiting j =>
              if decide (j = i) then
                match remaining l with
                | [] => None
                | _ :: _ => Some (mkLoop (Sleeping (t + 500)%Z) (remaining l))
                end
              else Some l
          | Sleeping _ => Some l
          end) ls.

(** The [finally] of [processQueueItem], and the return to its caller. *)
Definition processQueueItem_finally (item : QueueItem) (w : World) : World :=
  set_loops (resumeLoops (id item) (now w))
    (set_inflight (filter (fun a => id (att_item a) ≠ id item))
       (set_processingIds (fun s => s ∖ {[id item]}) w)).

(** [processQueueItem], from the settling of [fetchWithRetry] to its end.
    The source suspends several times on the way ([response.json()], the
    calls of the store, [handleSyncState]); they are taken here in one
    stretch, so that a run interleaves whole ends of attempts and not their
    parts.  Statements on the order of the broadcasts of different
    attempts are therefore not made over runs. *)
Definition processQueueItem_settle (item : QueueItem) (res : FetchResult) (w : World)
    : World :=
  processQueueItem_finally item
    match attemptOutcome res with
    | inr sid =>
        let w1 := set_queue (dequeue (id item)) w in
        let w2 :=
          broadcastMessage
            (SAVE_RESULT
               (SaveResult.mk true sid None (text (payload item)) (Some (id item)))) w1 in
        broadcastMessage (STATE_UPDATE (handleSyncState (queue w2))) w2
    | inl error =>
        let errorMessage := Error.message error in
        if (retryCount item <? CONFIG.MAX_RETRIES)%nat && isRetryableError error then
          let w1 := set_queue (updateItemStatus (id item) pending (Some errorMessage)) w in
          let delay := retryDelay (retryCount item) in
          set_timers (fun ts => ts ++ [((now w + delay)%Z, id item)]) w1
        else
          let w1 := set_queue (updateItemStatus (id item) failed (Some errorMessage)) w in
          let w2 :=
            broadcastMessage
              (SAVE_RESULT
                 (SaveResult.mk false None (Some errorMessage) (text (payload item))
                    (Some (id item)))) w1 in
          broadcastMessage (STATE_UPDATE (handleSyncState (queue w2))) w2
    end.

(** [queue.find(q => q.id === queueId)] *)
Definition entry (queueId : string) (q : Queue) : option QueueItem :=
  List.find (fun q => bool_decide (id q = queueId)) q.

(** [retryQueueItem], up to the suspension of the attempt it starts. *)
Definition retryQueueItem (queueId : string) (w : World) : World :=
  match entry queueId (getQueue (queue w)) with
  | Some item =>
      if decide (status item = pending ∨ status item = failed)
      then (processQueueItem_begin FromRetry item w).2
      else w
  | None => w
  end.

(** The answer of [handleSaveSnippet] to the capture surface. *)
Inductive SaveReply :=
  | ReplyPending (queueId : string)
  | ReplyError (error : string).

(** JavaScript's [text.length]. *)
Definition strlen (s : string) : Z := Z.of_nat (String.length s).

(** [handleSaveSnippet], up to the suspension of the attempt it starts.
    [dup] is the verdict of [isDuplicate] of shared/storage.ts and [newId]
    the identifier [enqueue] draws; a left result is the rejection of the
    promise when [enqueue] throws. *)
Definition handleSaveSnippet (p : Payload) (dup : bool) (newId : string) (w : World)
    : (StoreError + SaveReply) * World :=
  if (strlen (text p) <? CONFIG.MIN_SELECTION_LENGTH)%Z then
    (inr (ReplyError "Selection too short (minimum 10 characters)"), w)
  else if (strlen (text p) >? CONFIG.MAX_SELECTION_LENGTH)%Z then
    (inr (ReplyError "Selection too long (maximum 10,000 characters)"), w)
  else if dup then
    (inr (ReplyError "This snippet was already saved recently"), w)
  else
    match enqueue newId (now w) p (queue w) with
    | inl e => (inl e, w)
    | inr (queueItem, q') =>
        let w1 := set_queue (fun _ => q') w in
        (inr (ReplyPending (id queueItem)),
         (processQueueItem_begin FromSubmit queueItem w1).2)
    end.

(** [processPendingOnStartup], up to its first pause: the snapshot of the
    entries to resume.  With nothing to resume it returns at once. *)
Definition processPendingOnStartup (w : World) : World :=
  match getPendingItems (queue w) with
  | [] => w
  | item :: rest =>
      set_loops (fun ls => ls ++ [mkLoop (Sleeping (now w + 500)%Z) (item :: rest)]) w
  end.

(** One turn of the loop of [processPendingOnStartup] after its pause:
    [processQueueItem(item)] on the head of the snapshot.  When the guard
    skips the item the call returns at once and the loop moves on;
    otherwise the loop waits for the attempt. *)
Definition processPendingOnStartup_wake (k : nat) (item : QueueItem)
    (rest : list QueueItem) (w : World) : World :=
  let (started, w1) := processQueueItem_begin FromStartup item w in
  if started then
    set_loops (fun ls => <[k := mkLoop (Awaiting (id item)) rest]> ls) w1
  else
    match rest with
    | [] => set_loops (fun ls => delete k ls) w1
    | _ :: _ =>
        set_loops (fun ls => <[k := mkLoop (Sleeping (now w + 500)%Z) rest]> ls) w1
    end.

(** The [CLEAR_FAILED] case of the message listener. *)
Definition handleClearFailed (queueId : string) (w : World) : World :=
  set_queue (dequeue queueId) w.

(** ** The worker among its environment *)

(** What the host delivers to the worker: the messages of the capture
    surface and of the popup, the settling or the 30 s abort of a request,
    a retry timer, a start of [processPendingOnStartup] (worker start-up or
    an [online] event) and the end of a pause of its loop. *)
Inductive Event :=
  | SaveSnippet (p : Payload) (dup : bool) (newId : string)
  | SyncState
  | RetryFailed (queueId : string)
  | ClearFailed (queueId : string)
  | FetchSettled (i : string) (res : FetchResult)
  | FetchTimeout (i : string)
  | RetryTimer (due : Z) (i : string)
  | Startup
  | LoopWake (k : nat).

Fixpoint remove_one (x : Z * string) (l : list (Z * string)) : list (Z * string) :=
  match l with
  | [] => []
  | y :: l' => if decide (y = x) then l' else y :: remove_one x l'
  end.

Definition findAttempt (i : string) (w : World) : option Attempt :=
  List.find (fun a => bool_decide (id (att_item a) = i)) (inflight w).

(** The worker's reaction to an event delivered at time [t]; [None] when
    the host cannot deliver it in that state (time running backwards, no
    such request, timer or loop, a timer before it is due, a response after
    the abort). *)
Definition step (te : Z * Event) (w0 : World) : option World :=
  let (t, e) := te in
  if decide (now w0 ≤ t)%Z then
    let w := set_now t w0 in
    match e with
    | SaveSnippet p dup newId => Some (handleSaveSnippet p dup newId w).2
    | SyncState => Some w
    | RetryFailed i => Some (retryQueueItem i w)
    | ClearFailed i => Some (handleClearFailed i w)
    | FetchSettled i res =>
        match findAttempt i w with
        | Some a =>
            if decide (t < att_start a + FETCH_TIMEOUT_MS)%Z
            then Some (processQueueItem_settle (att_item a) res w)
            else None
        | None => None
        end
    | FetchTimeout i =>
        match findAttempt i w with
        | Some a =>
            if decide (att_start a + FETCH_TIMEOUT_MS ≤ t)%Z
            then Some (processQueueItem_settle (att_item a) (Rejected abortError) w)
            else None
        | None => None
        end
    | RetryTimer due i =>
        if decide ((due, i) ∈ timers w ∧ (due ≤ t)%Z)
        then Some (retryQueueItem i (set_timers (remove_one (due, i)) w))
        else None
    | Startup => Some (processPendingOnStartup w)
    | LoopWake k =>
        match loops w !! k with
        | Some (mkLoop (Sleeping wake) (item :: rest)) =>
            if decide (wake ≤ t)%Z
            then Some (processPendingOnStartup_wake k item rest w)
            else None
        | _ => None
        end
    end
  else None.

Fixpoint run (evs : list (Z * Event)) (w : World) : option World :=
  match evs with
  | [] => Some w
  | e :: evs' =>
      match step e w with
      | Some w' => run evs' w'
      | None => None
      end
  end.

(** A worker that has just been loaded at time [t0]: module state is
    fresh, session storage holds what the previous run left. *)
Definition startWorld (q : Queue) (t0 : Z) : World :=
  mkWorld q ∅ [] [] [] [] [] t0.

(** ** The state summary, as the specification words it *)

Module Summary.
(** The number of entries whose status is pending or saving. *)
Fixpoint pendingOrSaving (q : Queue) : nat :=
  match q with
  | [] => 0
  | it :: q' =>
      match status it with
      | pending | saving => S (pendingOrSaving q')
      | failed => pendingOrSaving q'
      end
  end.

(** The last [n] entries, in insertion order. *)
Definition lastEntries (n : nat) (q : Queue) : Queue := rev (take n (rev q)).

(** The first [n] characters of a text. *)
Fixpoint truncated (n : nat) (s : string) : string :=
  match n, s with
  | S n', String c s' => String c (truncated n' s')
  | _, _ => ""
  end.

(** An in-flight entry is reported as pending. *)
Definition reported (st : Status) : Status :=
  match st with
  | saving => pending
  | pending => pending
  | failed => failed
  end.

Definition recentItem (it : QueueItem) : RecentSave.t :=
  RecentSave.mk (id it) (truncated 100 (text (payload it)))
    (sourceDomain (payload it)) (reported (status it)).
End Summary.

(** ** The message listener of the worker *)

(** [ExtensionMessage]; the last case stands for the two messages of
    [BackgroundMessage]. *)
Inductive ExtensionMessage :=
  | SAVE_SNIPPET (payload : Payload)
  | GET_STATE
  | SYNC_STATE
  | RETRY_FAILED (queueId : string)
  | CLEAR_FAILED (queueId : string)
  | FROM_BACKGROUND (m : Message).

(** What [sendResponse] is called with: the result of [handleSaveSnippet],
    the state, [{ success: true }], or [{ success: false, error }] when the
    promise of the handler was rejected. *)
Inductive Reply :=
  | SaveReplied (r : SaveReply)
  | StateReplied (state : StateUpdate.t)
  | Succeeded
  | FailedWith (e : StoreError).

(** The listener of [chrome.runtime.onMessage]: whether it returns [true]
    to keep the channel open, what [sendResponse] is called with, and the
    world it leaves.  For [RETRY_FAILED] the reply is sent when the attempt
    that [retryQueueItem] awaits has ended; the world given here is the one
    at the suspension of that attempt. *)
Definition onMessage (message : ExtensionMessage) (dup : bool) (newId : string)
    (w : World) : bool * option Reply * World :=
  match message with
  | SAVE_SNIPPET payload =>
      match handleSaveSnippet payload dup newId w with
      | (inr result, w') => (true, Some (SaveReplied result), w')
      | (inl err, w') => (true, Some (FailedWith err), w')
      end
  | SYNC_STATE => (true, Some (StateReplied (handleSyncState (queue w))), w)
  | RETRY_FAILED queueId => (true, Some Succeeded, retryQueueItem queueId w)
  | CLEAR_FAILED queueId => (true, Some Succeeded, handleClearFailed queueId w)
  | GET_STATE | FROM_BACKGROUND _ => (false, None, w)
  end.

(** ** content/selection-listener.ts *)

Module Content.
(** What the page knows of [window.getSelection()]: whether it is
    collapsed, its text, and the [textContent] of the closest block
    ancestor of its range, absent when there is none or the lookup
    throws. *)
Record Selection := mkSelection {
  isCollapsed : bool;
  toString : string;
  blockText : option string
}.

Record PageMetadata := mkPageMetadata {
  url : string;
  title : string;
  domain : string
}.

(** [hostname.replace(/^www\./, "")] *)
Definition stripWww (hostname : string) : string :=
  if String.prefix "www." hostname
  then String.substring 4 (String.length hostname - 4) hostname
  else hostname.

(** [getPageMetadata] *)
Definition getPageMetadata (href documentTitle hostname : string) : PageMetadata :=
  mkPageMetadata href documentTitle (stripWww hostname).

(** [getSelectionWithContext]; [trim] is [String.prototype.trim]. *)
Definition getSelectionWithContext (trim : string → string)
    (selection : option Selection) : option (string * string) :=
  match selection with
  | None => None
  | Some sel =>
      if isCollapsed sel then None
      else
        let text := trim (toString sel) in
        if (strlen text <? CONFIG.MIN_SELECTION_LENGTH)%Z then None
        else if (strlen text >? CONFIG.MAX_SELECTION_LENGTH)%Z then None
        else
          let context :=
            match blockText sel with
            | Some t => or_else (Some (String.substring 0 500 t)) ""
            | None => ""
            end in
          Some (text, context)
  end.

(** The message [saveSelection] sends. *)
Definition saveSelection_message (text context : string) (metadata : PageMetadata)
    : ExtensionMessage :=
  SAVE_SNIPPET (mkPayload text (url metadata) (title metadata) (domain metadata)
                  (Some context)).

(** What the floating button is made to show. *)
Inductive Feedback :=
  | ButtonSuccess
  | ButtonError (label : string).

(** The state of the content script: the [pendingSaves] map, whether the
    button exists, and what it has been made to show, oldest first. *)
Record Page := mkPage {
  pendingSaves : gmap string string;
  saveButton : bool;
  shown : list Feedback
}.

(** [showButtonSuccess] *)
Definition showButtonSuccess (c : Page) : Page :=
  if saveButton c
  then mkPage (pendingSaves c) (saveButton c) (shown c ++ [ButtonSuccess])
  else c.

(** [showButtonError] *)
Definition showButtonError (message : string) (c : Page) : Page :=
  if saveButton c
  then mkPage (pendingSaves c) (saveButton c)
         (shown c ++ [ButtonError (String.substring 0 20 message)])
  else c.

(** How [chrome.runtime.sendMessage] ends for the page. *)
Inductive Delivery :=
  | Answered (r : Reply)
  | Unanswered
  | Threw.

(** [saveSelection], from the answer of the worker on.  [errorText] is the
    message of the error thrown by [enqueue], as the worker passes it on. *)
Definition saveSelection_response (errorText : StoreError → string) (text : string)
    (d : Delivery) (c : Page) : Page :=
  match d with
  | Threw => showButtonError "Connection failed" c
  | Unanswered => showButtonError "Extension error" c
  | Answered (SaveReplied (ReplyPending queueId)) =>
      if decide (queueId = "") then c
      else mkPage (<[queueId := String.substring 0 50 text]> (pendingSaves c))
             (saveButton c) (shown c)
  | Answered (SaveReplied (ReplyError error)) =>
      showButtonError (or_else (Some error) "Failed to save") c
  | Answered (FailedWith e) =>
      if decide (errorText e = "") then c
      else showButtonError (or_else (Some (errorText e)) "Failed to save") c
  | Answered (StateReplied _) | Answered Succeeded => c
  end.

(** The listener for the [SAVE_RESULT] broadcasts of the worker. *)
Definition onSaveResult (message : Message) (c : Page) : Page :=
  match message with
  | SAVE_RESULT payload =>
      match SaveResult.queueId payload with
      | Some queueId =>
          if decide (queueId = "") then c
          else
            match pendingSaves c !! queueId with
            | Some _ =>
                let c' := mkPage (delete queueId (pendingSaves c)) (saveButton c)
                            (shown c) in
                if SaveResult.success payload then showButtonSuccess c'
                else showButtonError (or_else (SaveResult.error payload) "Failed") c'
            | None => c
            end
      | None => c
      end
  | STATE_UPDATE _ => c
  end.

(** What reaches the page: the end of a [sendMessage] of [saveSelection],
    or a broadcast. *)
Inductive PageEvent :=
  | GotResponse (text : string) (d : Delivery)
  | GotBroadcast (m : Message).

Definition pageStep (errorText : StoreError → string) (ev : PageEvent) (c : Page)
    : Page :=
  match ev with
  | GotResponse text d => saveSelection_response errorText text d c
  | GotBroadcast m => onSaveResult m c
  end.
End Content.

(** * Predicates and scenarios

    What the properties below speak of: invariants of the worker's state,
    classes of events, projections of the logs, and the concrete payloads,
    stores and runs used as instances. *)

(** ** The in-flight guard *)

Definition inflightIds (w : World) : list string :=
  (fun a => id (att_item a)) <$> inflight w.

(** No entry has two attempts under way, and [processingIds] holds the ids
    of the attempts under way. *)
Definition guard_inv (w : World) : Prop :=
  NoDup (inflightIds w) ∧ ∀ i, i ∈ processingIds w ↔ i ∈ inflightIds w.

(** ** The shapes of a step *)

(** The shapes of a step at time [t] from [w]: the clock moves to [t] and
    then one continuation of the worker runs. *)
Inductive StepCase (t : Z) (w : World) : Event → World → Prop :=
  | sc_idle e :
      StepCase t w e (set_now t w)
  | sc_submit p dup newId :
      (length (queue w) < CONFIG.MAX_QUEUE_SIZE)%nat →
      StepCase t w (SaveSnippet p dup newId)
        (processQueueItem_begin FromSubmit (submitted newId t p)
           (set_queue (fun q => q ++ [submitted newId t p]) (set_now t w))).2
  | sc_retry i item :
      item ∈ queue w → id item = i → status item = pending ∨ status item = failed →
      StepCase t w (RetryFailed i) (processQueueItem_begin FromRetry item (set_now t w)).2
  | sc_clear i :
      StepCase t w (ClearFailed i) (handleClearFailed i (set_now t w))
  | sc_settled i a res :
      findAttempt i w = Some a → (t < att_start a + FETCH_TIMEOUT_MS)%Z →
      StepCase t w (FetchSettled i res)
        (processQueueItem_settle (att_item a) res (set_now t w))
  | sc_timeout i a :
      findAttempt i w = Some a → (att_start a + FETCH_TIMEOUT_MS ≤ t)%Z →
      StepCase t w (FetchTimeout i)
        (processQueueItem_settle (att_item a) (Rejected abortError) (set_now t w))
  | sc_timer_idle due i :
      (due, i) ∈ timers w → (due ≤ t)%Z →
      StepCase t w (RetryTimer due i)
        (set_timers (remove_one (due, i)) (set_now t w))
  | sc_timer due i item :
      (due, i) ∈ timers w → (due ≤ t)%Z →
      item ∈ queue w → id item = i → status item = pending ∨ status item = failed →
      StepCase t w (RetryTimer due i)
        (processQueueItem_begin FromRetry item
           (set_timers (remove_one (due, i)) (set_now t w))).2
  | sc_startup item rest :
      getPendingItems (queue w) = item :: rest →
      StepCase t w Startup
        (set_loops (fun ls => ls ++ [mkLoop (Sleeping (t + 500)%Z) (item :: rest)])
           (set_now t w))
  | sc_wake k wake item rest :
      loops w !! k = Some (mkLoop (Sleeping wake) (item :: rest)) → (wake ≤ t)%Z →
      StepCase t w (LoopWake k) (processPendingOnStartup_wake k item rest (set_now t w)).

(** ** Attempts and their ends *)

(** The broadcast of a saved snippet. *)
Definition successMessage (item : QueueItem) (sid : option string) : Message :=
  SAVE_RESULT (SaveResult.mk true sid None (text (payload item)) (Some (id item))).

(** The broadcast of a final failure. *)
Definition failureMessage (item : QueueItem) (e : Error.t) : Message :=
  SAVE_RESULT
    (SaveResult.mk false None (Some (Error.message e)) (text (payload item))
       (Some (id item))).


(** A success broadcast that carries queueId [i]. *)
Definition isSuccessFor (i : string) (m : Message) : bool :=
  match m with
  | SAVE_RESULT p => SaveResult.success p && bool_decide (SaveResult.queueId p = Some i)
  | STATE_UPDATE _ => false
  end.

(** How many of them have been published. *)
Definition successCount (i : string) (w : World) : nat :=
  length (filter (fun m => isSuccessFor i m) (broadcasts w)).

(** The requests sent for entry [i], from any call site. *)
Definition attemptsOn (i : string) (w : World) : list Request :=
  filter (fun r => id (rq_item r) = i) (requests w).

(** The requests that [retryQueueItem] sent for entry [i]. *)
Definition retriesOf (i : string) (w : World) : list Request :=
  filter (fun r => rq_by r = FromRetry ∧ id (rq_item r) = i) (requests w).

(** The requests that [processPendingOnStartup] sent. *)
Definition startupRequests (w : World) : list Request :=
  filter (fun r => rq_by r = FromStartup) (requests w).

(** ** Retries *)

(** Entry [i] has just been sent for the attempt that follows [rc]
    failures: its request left at the present time, and the store shows it
    as saving. *)
Definition delivering (i : string) (rc : nat) (w : World) : Prop :=
  (∃ item, findAttempt i w = Some (mkAttempt item (now w)) ∧ retryCount item = rc)
  ∧ (∃ it, entry i (queue w) = Some it ∧ retryCount it = rc ∧ status it = saving).

(** The events of a delivery that never succeeds: each request, sent at
    [t] after [rc] failures, is answered [lat] ms later with [res]; each
    retry timer fires when it is due.  [n] retries follow the first
    answer. *)
Fixpoint failingRun (i : string) (res : FetchResult) (lat t : Z) (rc n : nat)
    : list (Z * Event) :=
  match n with
  | 0 => [((t + lat)%Z, FetchSettled i res)]
  | S n' =>
      let due := (t + lat + retryDelay rc)%Z in
      ((t + lat)%Z, FetchSettled i res)
        :: (due, RetryTimer due i)
        :: failingRun i res lat due (S rc) n'
  end.

(** The times at which those retries are sent. *)
Fixpoint retryTimes (lat t : Z) (rc n : nat) : list Z :=
  match n with
  | 0 => []
  | S n' =>
      let due := (t + lat + retryDelay rc)%Z in
      due :: retryTimes lat due (S rc) n'
  end.

(** ** Failed entries and discard *)

(** A submit that draws identifier [i]. *)
Definition submits (i : string) (e : Event) : bool :=
  match e with
  | SaveSnippet _ _ newId => bool_decide (newId = i)
  | _ => false
  end.

(** A discard of entry [i]. *)
Definition discards (i : string) (e : Event) : bool :=
  match e with
  | ClearFailed j => bool_decide (j = i)
  | _ => false
  end.


(** No recovery loop has entry [i] ahead of it in its snapshot. *)
Definition unlisted (i : string) (w : World) : Prop :=
  ∀ l it, l ∈ loops w → it ∈ remaining l → id it ≠ i.

(** Entry [i] is in the store as [it] and no attempt for it is under way. *)
Definition resting (i : string) (it : QueueItem) (w : World) : Prop :=
  entry i (queue w) = Some it ∧ findAttempt i w = None.






(** ** Recovery *)

(** Each time is at least [gap] before every later one. *)
Fixpoint staggered (gap : Z) (ts : list Z) : Prop :=
  match ts with
  | [] => True
  | t :: ts' => (∀ t', t' ∈ ts' → (t + gap ≤ t')%Z) ∧ staggered gap ts'
  end.

(** The events that leave a recovery to itself; left out are another run
    of [processPendingOnStartup], a manual retry of an entry of the
    snapshot and a submit drawing the identifier of one. *)
Definition undisturbed (snapshot : list QueueItem) (e : Event) : bool :=
  match e with
  | Startup => false
  | RetryFailed i => bool_decide (i ∉ id <$> snapshot)
  | SaveSnippet _ _ newId => bool_decide (newId ∉ id <$> snapshot)
  | _ => true
  end.

(** The one recovery loop, over what is left of the snapshot: ended, in
    its pause, or waiting for the attempt it started, which is under
    way. *)
Definition loop_shape (tb : Z) (todo : list QueueItem) (w : World) : Prop :=
  (loops w = [] ∧ todo = [])
  ∨ (∃ wake, loops w = [mkLoop (Sleeping wake) todo] ∧ todo ≠ []
             ∧ (tb + 500 ≤ wake)%Z
             ∧ ∀ r, r ∈ startupRequests w → (rq_time r + 500 ≤ wake)%Z)
  ∨ (∃ j a, loops w = [mkLoop (Awaiting j) todo] ∧ findAttempt j w = Some a).

(** The state of a recovery started at [tb] over [snapshot]: the entries
    [done] have been sent, in order and apart in time; those [todo] have
    neither an attempt under way nor a timer. *)
Record recovery_inv (snapshot : list QueueItem) (tb : Z)
    (done todo : list QueueItem) (w : World) : Prop := mkRecoveryInv {
  ri_split : snapshot = done ++ todo;
  ri_done : rq_item <$> startupRequests w = done;
  ri_loop : loop_shape tb todo w;
  ri_clear : ∀ it, it ∈ todo →
               (id it ∉ processingIds w) ∧ ∀ due, (due, id it) ∉ timers w;
  ri_guard : guard_inv w;
  ri_times : ∀ r, r ∈ startupRequests w → (tb + 500 ≤ rq_time r ≤ now w)%Z;
  ri_stag : staggered 500 (rq_time <$> startupRequests w);
  ri_now : (tb ≤ now w)%Z
}.

(** The specification's wording of start-up recovery, in the half that
    bounds the sends: after a start-up over a store of distinct ids,
    whatever follows, the recovery sends no entry that was pending or
    failed more than once. *)
Definition each_resumed_once : Prop :=
  ∀ q t0 t1 evs w it,
    NoDup (id <$> q) →
    run ((t1, Startup) :: evs) (startWorld q t0) = Some w →
    it ∈ getPendingItems q →
    (length (filter (fun r => id (rq_item r) = id it) (startupRequests w)) ≤ 1)%nat.

(** ** Logs and the page *)

(** What a step added to the broadcasts. *)
Definition newBroadcasts (w w' : World) : list Message :=
  drop (length (broadcasts w)) (broadcasts w').

(** A result as the listeners expect it: it names its entry, and carries
    an error exactly when it is not a success, a snippet id only when it
    is. *)
Definition wellFormedResult (p : SaveResult.t) : Prop :=
  is_Some (SaveResult.queueId p)
  ∧ (SaveResult.success p = true → SaveResult.error p = None)
  ∧ (SaveResult.success p = false →
     is_Some (SaveResult.error p) ∧ SaveResult.snippetId p = None).

Definition isResult (m : Message) : bool :=
  match m with
  | SAVE_RESULT _ => true
  | STATE_UPDATE _ => false
  end.

Definition isStateUpdate (m : Message) : bool :=
  match m with
  | SAVE_RESULT _ => false
  | STATE_UPDATE _ => true
  end.

(** A log in which every result is well formed and, up to any point, no
    more state updates than results have been published: a state update
    is only ever published by an invocation that has published its result
    before.  Nothing is said of what lies between a result and its state
    update, since the source awaits [handleSyncState] between the two
    and another invocation may publish meanwhile. *)
Definition orderlyLog (bs : list Message) : Prop :=
  (∀ p, SAVE_RESULT p ∈ bs → wellFormedResult p)
  ∧ ∀ n, (length (filter (fun m => isStateUpdate m) (take n bs))
          ≤ length (filter (fun m => isResult m) (take n bs)))%nat.

(** The number of results broadcast so far. *)
Definition resultCount (w : World) : nat :=
  length (filter (fun m => isResult m) (broadcasts w)).

(** The page after the broadcasts [ms], in order. *)
Definition deliver (ms : list Message) (c : Content.Page) : Content.Page :=
  foldl (fun c m => Content.onSaveResult m c) c ms.

(** The page after the events [evs], in order. *)
Definition pageRun (errorText : StoreError → string) (evs : list Content.PageEvent)
    (c : Content.Page) : Content.Page :=
  foldl (fun c ev => Content.pageStep errorText ev c) c evs.

(** The labels of the errors a page has shown. *)
Definition errorLabels (c : Content.Page) : list string :=
  omap (fun f => match f with
                 | Content.ButtonError l => Some l
                 | Content.ButtonSuccess => None
                 end) (Content.shown c).

(** ** Instances *)

(** The capture of the specification's scenario. *)
Definition fox : Payload :=
  mkPayload "The quick brown fox jumps" "https://example.com/a" "A" "example.com" None.

(** A response with the given status whose body is a JSON object, with or
    without an [error] field. *)
Definition http (st : nat) (error : option string) : FetchResult :=
  Resolved (Response.mk st (Json error None)).

(** A store at its capacity. *)
Definition fullQueue : Queue :=
  (fun n => mkQueueItem (pretty n) 0 0 None pending fox) <$> seq 0 100.

(** A failed entry with a retry timer still pending: a first answer 500, a
    manual retry answered 400. *)
Definition failedWithTimer : World :=
  default (startWorld [] 0)
    (run [(0%Z, SaveSnippet fox false "q1");
          (10%Z, FetchSettled "q1" (http 500 None));
          (20%Z, RetryFailed "q1");
          (30%Z, FetchSettled "q1" (http 400 None))]
       (startWorld [] 0)).

(** What a previous run left: a failed entry, a pending one, and one that
    was saving when the worker was stopped. *)
Definition leftOver : Queue :=
  [mkQueueItem "a" 0 3 (Some "HTTP 500") failed fox;
   mkQueueItem "b" 0 0 None pending fox;
   mkQueueItem "c" 0 0 None saving fox].

(** A capture whose first request is answered 503 and whose retry is
    answered 201. *)
Definition retriedOnce : list (Z * Event) :=
  [(0%Z, SaveSnippet fox false "q1");
   (100%Z, FetchSettled "q1" (http 503 None));
   (1100%Z, RetryTimer 1100 "q1");
   (1200%Z, FetchSettled "q1" (Resolved (Response.mk 201 (Json None (Some "s1")))))].

(** Two failed entries left by a previous run. *)
Definition twoFailed : Queue :=
  [mkQueueItem "a" 0 3 (Some "HTTP 500") failed fox;
   mkQueueItem "b" 0 3 (Some "HTTP 500") failed fox].

(** * Properties *)

(** ** Lists, strings and the store *)

Lemma substring_truncated n s : String.substring 0 n s = Summary.truncated n s.
Proof.
  revert s; induction n as [|n IH]; intros [|c s]; simpl; try reflexivity.
  by rewrite IH.
Qed.

Lemma slice_last_lastEntries n (q : Queue) : slice_last n q = Summary.lastEntries n q.
Proof.
  unfold slice_last, Summary.lastEntries.
  by rewrite firstn_rev, rev_involutive.
Qed.

Lemma length_slice_last {A} n (l : list A) : length (slice_last n l) = min n (length l).
Proof. unfold slice_last. rewrite length_drop. lia. Qed.

Lemma pending_filter_count (q : Queue) :
  length (filter (fun it => status it = pending ∨ status it = saving) q)
  = Summary.pendingOrSaving q.
Proof.
  induction q as [|it q IH]; [reflexivity|].
  rewrite filter_cons. simpl.
  destruct (status it) eqn:E; case_decide as H; simpl; try (by rewrite IH);
    try (exfalso; apply H; auto; fail);
    destruct H as [H|H]; discriminate H.
Qed.

(** C10. The summary handed to control surfaces counts as pending the
    entries that are pending or saving, and lists the last ten entries in
    insertion order, the text of each cut to its first hundred characters
    and a saving status shown as pending. *)
Theorem handleSyncState_summary (q : Queue) :
  StateUpdate.pendingCount (handleSyncState q) = Summary.pendingOrSaving q
  ∧ StateUpdate.recentSaves (handleSyncState q)
    = Summary.recentItem <$> Summary.lastEntries 10 q
  ∧ length (StateUpdate.recentSaves (handleSyncState q)) = min 10 (length q).
Proof.
  unfold handleSyncState, getQueue; simpl. split; [apply pending_filter_count|].
  split.
  - rewrite slice_last_lastEntries. apply list_fmap_ext. intros _ it _.
    unfold Summary.recentItem. rewrite substring_truncated. f_equal.
    destruct (status it); reflexivity.
  - by rewrite length_fmap, length_slice_last.
Qed.

(** ** Validation and capacity at submit *)

(** C5. A capture whose text is shorter than the minimum or longer than
    the maximum is answered at once with an error; nothing is enqueued, no
    request is sent, the world is as it was. *)
Theorem handleSaveSnippet_out_of_bounds p dup newId w :
  (strlen (text p) < CONFIG.MIN_SELECTION_LENGTH
   ∨ CONFIG.MAX_SELECTION_LENGTH < strlen (text p))%Z →
  (∃ reason, (handleSaveSnippet p dup newId w).1 = inr (ReplyError reason))
  ∧ (handleSaveSnippet p dup newId w).2 = w
  ∧ length (queue (handleSaveSnippet p dup newId w).2) = length (queue w).
Proof.
  intros H. unfold handleSaveSnippet.
  destruct (Z.ltb_spec (strlen (text p)) CONFIG.MIN_SELECTION_LENGTH) as [Hs|Hs].
  { simpl; eauto. }
  destruct H as [H|H]; [lia|].
  rewrite (proj2 (Z.gtb_gt _ _)) by lia.
  simpl; eauto.
Qed.

Lemma handleSaveSnippet_out_of_bounds_witness :
  let p := mkPayload "too short" "https://example.com/a" "A" "example.com" None in
  (strlen (text p) < CONFIG.MIN_SELECTION_LENGTH
   ∨ CONFIG.MAX_SELECTION_LENGTH < strlen (text p))%Z
  ∧ (handleSaveSnippet p false "q1" (startWorld [] 0)).2 = startWorld [] 0.
Proof.
  intros p. split.
  - left. vm_compute. reflexivity.
  - apply (handleSaveSnippet_out_of_bounds p false "q1" (startWorld [] 0)).
    left. vm_compute. reflexivity.
Defined.

(** C8. With the store at its capacity [enqueue] fails with
    CapacityExceeded, and a submit leaves the world as it was: the capture
    is not added and no entry is evicted.  A capture that passes
    validation is answered with that failure. *)
Theorem handleSaveSnippet_at_capacity p dup newId w :
  (CONFIG.MAX_QUEUE_SIZE ≤ length (queue w))%nat →
  enqueue newId (now w) p (queue w) = inl CapacityExceeded
  ∧ (handleSaveSnippet p dup newId w).2 = w
  ∧ ((CONFIG.MIN_SELECTION_LENGTH ≤ strlen (text p) ≤ CONFIG.MAX_SELECTION_LENGTH)%Z →
     dup = false →
     (handleSaveSnippet p dup newId w).1 = inl CapacityExceeded).
Proof.
  intros H.
  assert (E : enqueue newId (now w) p (queue w) = inl CapacityExceeded).
  { unfold enqueue. by rewrite (proj2 (Nat.leb_le _ _)). }
  split; [exact E|]. unfold handleSaveSnippet. rewrite E. split.
  - repeat case_match; reflexivity.
  - intros [Hlo Hhi] ->.
    rewrite (proj2 (Z.ltb_ge _ _)) by lia.
    destruct (Z.gtb_spec (strlen (text p)) CONFIG.MAX_SELECTION_LENGTH); [lia|].
    reflexivity.
Qed.

Lemma handleSaveSnippet_at_capacity_witness :
  (CONFIG.MAX_QUEUE_SIZE ≤ length (queue (startWorld fullQueue 0)))%nat
  ∧ (handleSaveSnippet fox false "q" (startWorld fullQueue 0)).2 = startWorld fullQueue 0.
Proof.
  split.
  - vm_compute. lia.
  - apply (handleSaveSnippet_at_capacity fox false "q" (startWorld fullQueue 0)).
    vm_compute. lia.
Defined.

(** ** Classification of failures *)

Lemma isRetryableError_abort : isRetryableError abortError = true.
Proof. reflexivity. Qed.

Lemma bare_5xx_retryable st :
  (500 ≤ st ≤ 599)%nat →
  ∃ e, attemptOutcome (http st None) = inl e ∧ isRetryableError e = true
       ∧ Error.message e = "HTTP " +:+ pretty st.
Proof.
  intros H.
  assert (A : forallb (fun s =>
                match attemptOutcome (http s None) with
                | inl e => isRetryableError e
                            && bool_decide (Error.message e = "HTTP " +:+ pretty s)
                | inr _ => false
                end) (seq 500 100) = true) by (vm_compute; reflexivity).
  rewrite forallb_forall in A. specialize (A st).
  destruct (attemptOutcome (http st None)) as [e|]; cycle 1.
  { discriminate A. apply in_seq; lia. }
  exists e. split; [reflexivity|].
  apply andb_true_iff in A as [A1 A2]; [|apply in_seq; lia].
  by apply bool_decide_eq_true in A2.
Qed.

Lemma bare_4xx_terminal st :
  (400 ≤ st ≤ 499)%nat →
  ∃ e, attemptOutcome (http st None) = inl e ∧ isRetryableError e = false.
Proof.
  intros H.
  assert (A : forallb (fun s =>
                match attemptOutcome (http s None) with
                | inl e => negb (isRetryableError e)
                | inr _ => false
                end) (seq 400 100) = true) by (vm_compute; reflexivity).
  rewrite forallb_forall in A. specialize (A st).
  destruct (attemptOutcome (http st None)) as [e|]; cycle 1.
  { discriminate A. apply in_seq; lia. }
  exists e. split; [reflexivity|].
  apply negb_true_iff, A, in_seq; lia.
Qed.

(** C2. A 500 response whose body names its error is not classified as
    retryable: the message thrown is the error of the body, not "HTTP 500",
    so the entry fails at once, with no retry timer. *)
Theorem http500_with_error_body_not_retried :
  let item := mkQueueItem "q1" 0 0 None pending fox in
  let w := (processQueueItem_begin FromSubmit item (startWorld [item] 0)).2 in
  let res := http 500 (Some "Internal Server Error") in
  attemptOutcome res = inl (Error.mk "Error" "Internal Server Error")
  ∧ isRetryableError (Error.mk "Error" "Internal Server Error") = false
  ∧ queue (processQueueItem_settle item res w)
    = [mkQueueItem "q1" 0 0 (Some "Internal Server Error") failed fox]
  ∧ timers (processQueueItem_settle item res w) = [].
Proof. vm_compute. repeat split; reflexivity. Qed.

(** ** The continuations, field by field *)

#[global] Arguments processQueueItem_begin : simpl never.
#[global] Arguments processQueueItem_settle : simpl never.
#[global] Arguments processPendingOnStartup_wake : simpl never.
#[global] Arguments retryQueueItem : simpl never.
#[global] Arguments handleSaveSnippet : simpl never.
#[global] Arguments step : simpl never.

Lemma begin_skip by_ item w :
  id item ∈ processingIds w → processQueueItem_begin by_ item w = (false, w).
Proof. intros H. unfold processQueueItem_begin. by rewrite decide_True. Qed.

Lemma begin_start by_ item w :
  id item ∉ processingIds w →
  processQueueItem_begin by_ item w
  = (true,
     mkWorld (updateItemStatus (id item) saving None (queue w))
       ({[id item]} ∪ processingIds w)
       (inflight w ++ [mkAttempt item (now w)])
       (timers w) (loops w) (broadcasts w)
       (requests w ++ [mkRequest (now w) item by_]) (now w)).
Proof. intros H. unfold processQueueItem_begin. by rewrite decide_False. Qed.

Lemma settle_frame item res w :
  processingIds (processQueueItem_settle item res w) = processingIds w ∖ {[id item]}
  ∧ inflight (processQueueItem_settle item res w)
    = filter (fun a => id (att_item a) ≠ id item) (inflight w)
  ∧ loops (processQueueItem_settle item res w)
    = resumeLoops (id item) (now w) (loops w)
  ∧ requests (processQueueItem_settle item res w) = requests w
  ∧ now (processQueueItem_settle item res w) = now w.
Proof.
  unfold processQueueItem_settle.
  destruct (attemptOutcome res) as [e|sid]; [|by repeat split].
  by destruct (_ && _); repeat split.
Qed.

Lemma retryQueueItem_cases i w :
  retryQueueItem i w = w
  ∨ ∃ item, item ∈ queue w ∧ id item = i
            ∧ (status item = pending ∨ status item = failed)
            ∧ retryQueueItem i w = (processQueueItem_begin FromRetry item w).2.
Proof.
  unfold retryQueueItem, getQueue, entry.
  destruct (List.find _ (queue w)) as [item|] eqn:F; [|by left].
  apply find_some in F as [Hin Hid].
  apply bool_decide_eq_true in Hid. apply list_elem_of_In in Hin.
  case_decide; [right; eauto 6|by left].
Qed.

Lemma handleSaveSnippet_cases p dup newId w :
  (handleSaveSnippet p dup newId w).2 = w
  ∨ (length (queue w) < CONFIG.MAX_QUEUE_SIZE)%nat
    ∧ (handleSaveSnippet p dup newId w).2
      = (processQueueItem_begin FromSubmit (mkQueueItem newId (now w) 0 None pending p)
           (set_queue (fun q => q ++ [mkQueueItem newId (now w) 0 None pending p]) w)).2.
Proof.
  unfold handleSaveSnippet, enqueue.
  destruct (strlen _ <? _)%Z; [by left|].
  destruct (strlen _ >? _)%Z; [by left|].
  destruct dup; [by left|].
  destruct (Nat.leb_spec CONFIG.MAX_QUEUE_SIZE (length (queue w))); [by left|].
  right. split; [done|reflexivity].
Qed.

Lemma findAttempt_Some i w a :
  findAttempt i w = Some a → a ∈ inflight w ∧ id (att_item a) = i.
Proof.
  unfold findAttempt. intros F. apply find_some in F as [Hin Hid].
  apply bool_decide_eq_true in Hid. by apply list_elem_of_In in Hin.
Qed.

(** ** The in-flight guard *)

Lemma guard_inv_ext w w' :
  processingIds w' = processingIds w → inflight w' = inflight w →
  guard_inv w → guard_inv w'.
Proof. unfold guard_inv, inflightIds. by intros -> ->. Qed.

Lemma guard_inv_begin by_ item w :
  guard_inv w → guard_inv (processQueueItem_begin by_ item w).2.
Proof.
  intros [ND Hset].
  destruct (decide (id item ∈ processingIds w)) as [Hin|Hnin].
  { by rewrite begin_skip. }
  rewrite begin_start by done. unfold guard_inv, inflightIds in *; simpl.
  rewrite fmap_app; simpl. split.
  - apply NoDup_app. split; [done|]. split; [|apply NoDup_singleton].
    intros x Hx Hx'. apply list_elem_of_singleton in Hx' as ->.
    by apply Hnin, Hset.
  - intros i. rewrite elem_of_union, elem_of_singleton, elem_of_app,
      list_elem_of_singleton, Hset. tauto.
Qed.

Lemma guard_inv_settle item res w :
  guard_inv w → guard_inv (processQueueItem_settle item res w).
Proof.
  intros [ND Hset].
  destruct (settle_frame item res w) as (Hp & Hi & _).
  unfold guard_inv, inflightIds in *. rewrite Hp, Hi. split.
  - eapply sublist_NoDup; [exact ND|]. apply fmap_sublist, sublist_filter.
  - intros i. rewrite elem_of_difference, elem_of_singleton, Hset,
      !list_elem_of_fmap.
    split.
    + intros [(a & -> & Ha) Hne]. exists a. split; [done|].
      by apply list_elem_of_filter.
    + intros (a & -> & Ha). apply list_elem_of_filter in Ha as [Hne Ha]. eauto.
Qed.

Lemma guard_inv_step te w w' : step te w = Some w' → guard_inv w → guard_inv w'.
Proof.
  destruct te as [t e]. unfold step. case_decide; [|done].
  intros Hs Hinv.
  assert (Hinv0 : guard_inv (set_now t w)) by (by eapply guard_inv_ext).
  destruct e; simplify_eq.
  - destruct (handleSaveSnippet_cases p dup newId (set_now t w)) as [->|[_ ->]]; [done|].
    apply guard_inv_begin. by eapply guard_inv_ext.
  - done.
  - destruct (retryQueueItem_cases queueId (set_now t w)) as [->|(it & _ & _ & _ & ->)];
      [done|by apply guard_inv_begin].
  - by eapply guard_inv_ext.
  - destruct (findAttempt i _) as [a|]; [|done]. case_decide; [|done].
    simplify_eq. by apply guard_inv_settle.
  - destruct (findAttempt i _) as [a|]; [|done]. case_decide; [|done].
    simplify_eq. by apply guard_inv_settle.
  - case_decide; [|done]. simplify_eq.
    match goal with |- guard_inv (retryQueueItem ?i ?w1) =>
      assert (guard_inv w1) by (by eapply guard_inv_ext);
      destruct (retryQueueItem_cases i w1) as [->|(it & _ & _ & _ & ->)];
        [done|by apply guard_inv_begin]
    end.
  - unfold processPendingOnStartup. destruct (getPendingItems _); [done|].
    by eapply guard_inv_ext.
  - destruct (loops _ !! k) as [[[wake|] [|item rest]]|]; try done.
    case_decide; [|done]. simplify_eq.
    unfold processPendingOnStartup_wake.
    pose proof (guard_inv_begin FromStartup item _ Hinv0) as Hb.
    destruct (processQueueItem_begin FromStartup item (set_now t w)) as [started w1].
    simpl in Hb. destruct started; [by eapply guard_inv_ext|].
    destruct rest; by eapply guard_inv_ext.
Qed.

Lemma guard_inv_run evs w w' : run evs w = Some w' → guard_inv w → guard_inv w'.
Proof.
  revert w; induction evs as [|te evs IH]; intros w; simpl.
  - by intros [= ->].
  - destruct (step te w) as [w1|] eqn:Hs; [|done].
    intros Hr Hinv. eapply IH; [done|]. by eapply guard_inv_step.
Qed.

Lemma guard_inv_start q t0 : guard_inv (startWorld q t0).
Proof.
  split; [constructor|]. intros i. unfold inflightIds; simpl. set_solver.
Qed.

(** C6. In every state a freshly loaded worker can reach, whatever the
    events and their order, no two attempts under way are for the same
    entry, [processingIds] is exactly the set of entries with an attempt
    under way, and a trigger for an entry in that set starts nothing and
    changes nothing. *)
Theorem no_concurrent_attempts q t0 evs w :
  run evs (startWorld q t0) = Some w →
  NoDup (inflightIds w)
  ∧ (∀ i, i ∈ processingIds w ↔ ∃ a, a ∈ inflight w ∧ id (att_item a) = i)
  ∧ (∀ by_ item a, a ∈ inflight w → id (att_item a) = id item →
       processQueueItem_begin by_ item w = (false, w)).
Proof.
  intros Hr.
  destruct (guard_inv_run _ _ _ Hr (guard_inv_start q t0)) as [ND Hset].
  split; [done|]. split.
  - intros i. rewrite Hset. unfold inflightIds. rewrite list_elem_of_fmap.
    split; intros (a & H1 & H2); eauto.
  - intros by_ item a Ha Hid. apply begin_skip, Hset.
    unfold inflightIds. apply list_elem_of_fmap. eauto.
Qed.

(** Two recovery loops over the same snapshot: the second finds entry "a"
    in [processingIds] and sends nothing. *)
Lemma no_concurrent_attempts_witness :
  ∃ w,
    run [(0%Z, Startup); (1%Z, Startup); (500%Z, LoopWake 0); (501%Z, LoopWake 1)]
      (startWorld leftOver 0) = Some w
    ∧ inflightIds w = ["a"]
    ∧ length (requests w) = 1%nat
    ∧ NoDup (inflightIds w).
Proof.
  eexists. split; [vm_compute; reflexivity|].
  split; [reflexivity|]. split; [reflexivity|].
  match goal with |- NoDup (inflightIds ?w) =>
    apply (no_concurrent_attempts leftOver 0%Z
             [(0%Z, Startup); (1%Z, Startup); (500%Z, LoopWake 0); (501%Z, LoopWake 1)] w)
  end.
  vm_compute. reflexivity.
Defined.

(** ** What one event can do *)

Lemma step_cases t e w w' :
  step (t, e) w = Some w' → (now w ≤ t)%Z ∧ StepCase t w e w'.
Proof.
  unfold step. case_decide as Hle; [|done]. intros Hs. split; [done|].
  destruct e; simplify_eq.
  - destruct (handleSaveSnippet_cases p dup newId (set_now t w)) as [->|[Hlen ->]].
    + constructor.
    + by apply sc_submit.
  - constructor.
  - destruct (retryQueueItem_cases queueId (set_now t w))
      as [->|(it & Hin & Hid & Hst & ->)]; [constructor|by apply sc_retry].
  - constructor.
  - destruct (findAttempt i _) as [a|] eqn:F; [|done]. case_decide; [|done].
    simplify_eq. by apply sc_settled.
  - destruct (findAttempt i _) as [a|] eqn:F; [|done]. case_decide; [|done].
    simplify_eq. by apply sc_timeout.
  - case_decide as Hd; [|done]. destruct Hd as [Hin Hdue]. simplify_eq.
    destruct (retryQueueItem_cases i (set_timers (remove_one (due, i)) (set_now t w)))
      as [->|(it & Hit & Hid & Hst & ->)]; [by apply sc_timer_idle|by apply sc_timer].
  - unfold processPendingOnStartup.
    destruct (getPendingItems (queue (set_now t w))) as [|item rest] eqn:G;
      [constructor|by apply sc_startup].
  - destruct (loops _ !! k) as [[[wake|] [|item rest]]|] eqn:L; try done.
    case_decide; [|done]. simplify_eq. by eapply sc_wake.
Qed.

(** The requests grow at the end, by the attempt a step starts, if any. *)
Lemma begin_requests by_ item w :
  requests (processQueueItem_begin by_ item w).2 = requests w
  ∨ (id item ∉ processingIds w)
    ∧ requests (processQueueItem_begin by_ item w).2
      = requests w ++ [mkRequest (now w) item by_].
Proof.
  destruct (decide (id item ∈ processingIds w)).
  - left. by rewrite begin_skip.
  - right. by rewrite begin_start.
Qed.

(** ** The three ways an attempt ends *)

Lemma settle_success item res sid w :
  attemptOutcome res = inr sid →
  queue (processQueueItem_settle item res w) = dequeue (id item) (queue w)
  ∧ timers (processQueueItem_settle item res w) = timers w
  ∧ broadcasts (processQueueItem_settle item res w)
    = broadcasts w ++ [successMessage item sid;
                        STATE_UPDATE (handleSyncState (dequeue (id item) (queue w)))].
Proof.
  intros E. unfold processQueueItem_settle. rewrite E. simpl.
  by rewrite <- app_assoc.
Qed.

Lemma settle_retry item res e w :
  attemptOutcome res = inl e →
  (retryCount item < CONFIG.MAX_RETRIES)%nat → isRetryableError e = true →
  queue (processQueueItem_settle item res w)
  = updateItemStatus (id item) pending (Some (Error.message e)) (queue w)
  ∧ timers (processQueueItem_settle item res w)
    = timers w ++ [((now w + retryDelay (retryCount item))%Z, id item)]
  ∧ broadcasts (processQueueItem_settle item res w) = broadcasts w.
Proof.
  intros E Hrc Hre. unfold processQueueItem_settle. rewrite E, Hre.
  by rewrite (proj2 (Nat.ltb_lt _ _) Hrc).
Qed.

Lemma settle_failed item res e w :
  attemptOutcome res = inl e →
  (CONFIG.MAX_RETRIES ≤ retryCount item)%nat ∨ isRetryableError e = false →
  queue (processQueueItem_settle item res w)
  = updateItemStatus (id item) failed (Some (Error.message e)) (queue w)
  ∧ timers (processQueueItem_settle item res w) = timers w
  ∧ broadcasts (processQueueItem_settle item res w)
    = broadcasts w
      ++ [failureMessage item e;
          STATE_UPDATE
            (handleSyncState
               (updateItemStatus (id item) failed (Some (Error.message e)) (queue w)))].
Proof.
  intros E H. unfold processQueueItem_settle. rewrite E.
  assert ((retryCount item <? CONFIG.MAX_RETRIES)%nat && isRetryableError e = false)
    as ->.
  { destruct H as [H| ->]; [|apply andb_false_r].
    by rewrite (proj2 (Nat.ltb_ge _ _) H). }
  simpl. by rewrite <- app_assoc.
Qed.


Lemma begin_frame by_ item w :
  broadcasts (processQueueItem_begin by_ item w).2 = broadcasts w
  ∧ timers (processQueueItem_begin by_ item w).2 = timers w
  ∧ loops (processQueueItem_begin by_ item w).2 = loops w
  ∧ now (processQueueItem_begin by_ item w).2 = now w.
Proof.
  destruct (decide (id item ∈ processingIds w)).
  - by rewrite begin_skip.
  - by rewrite begin_start.
Qed.

Lemma wake_frame k item rest w :
  let w' := processPendingOnStartup_wake k item rest w in
  queue w' = queue (processQueueItem_begin FromStartup item w).2
  ∧ processingIds w' = processingIds (processQueueItem_begin FromStartup item w).2
  ∧ inflight w' = inflight (processQueueItem_begin FromStartup item w).2
  ∧ timers w' = timers w
  ∧ broadcasts w' = broadcasts w
  ∧ requests w' = requests (processQueueItem_begin FromStartup item w).2
  ∧ now w' = now w.
Proof.
  unfold processPendingOnStartup_wake.
  destruct (begin_frame FromStartup item w) as (Hb & Ht & _ & Hn).
  destruct (processQueueItem_begin FromStartup item w) as [started w1]; simpl in *.
  destruct started; [by repeat split|]. by destruct rest; repeat split.
Qed.

(** ** An attempt stays under way until it settles *)

Lemma find_app_Some {A} (f : A → bool) l k a :
  List.find f l = Some a → List.find f (l ++ k) = Some a.
Proof.
  induction l as [|x l IH]; simpl; [done|]. destruct (f x); [done|apply IH].
Qed.

Lemma find_app_None {A} (f : A → bool) l k :
  List.find f l = None → List.find f (l ++ k) = List.find f k.
Proof.
  induction l as [|x l IH]; simpl; [done|]. destruct (f x); [done|apply IH].
Qed.

Lemma findAttempt_ext i w w' :
  inflight w' = inflight w → findAttempt i w' = findAttempt i w.
Proof. unfold findAttempt. by intros ->. Qed.

Lemma findAttempt_begin i a by_ item w :
  findAttempt i w = Some a →
  findAttempt i (processQueueItem_begin by_ item w).2 = Some a.
Proof.
  intros F. destruct (decide (id item ∈ processingIds w)).
  - by rewrite begin_skip.
  - rewrite begin_start by done. unfold findAttempt in *; simpl.
    by apply find_app_Some.
Qed.

Lemma findAttempt_settle i item res w :
  id item ≠ i →
  findAttempt i (processQueueItem_settle item res w) = findAttempt i w.
Proof.
  intros Hne. destruct (settle_frame item res w) as (_ & Hi & _).
  unfold findAttempt. rewrite Hi. clear Hi.
  induction (inflight w) as [|a l IH]; [done|].
  rewrite filter_cons. simpl. case_decide as Hd; simpl.
  - by rewrite IH.
  - rewrite bool_decide_eq_false_2; [by rewrite IH|congruence].
Qed.




(** ** Counting the success broadcasts of an entry *)




Lemma run_app evs1 evs2 w :
  run (evs1 ++ evs2) w = run evs1 w ≫= run evs2.
Proof.
  revert w; induction evs1 as [|te evs1 IH]; intros w; simpl; [done|].
  destruct (step te w); [apply IH|done].
Qed.


Lemma step_now te w w' : step te w = Some w' → (now w ≤ now w')%Z ∧ now w' = te.1.
Proof.
  destruct te as [t e]. intros Hs. apply step_cases in Hs as [Hle Hc]. simpl.
  destruct Hc;
    rewrite ?(proj2 (proj2 (proj2 (begin_frame _ _ _))));
    rewrite ?(proj2 (proj2 (proj2 (proj2 (settle_frame _ _ _)))));
    try done.
  destruct (wake_frame k item rest (set_now t w)) as (_ & _ & _ & _ & _ & _ & ->).
  done.
Qed.

(** ** Submit, then a successful remote write *)

Lemma handleSaveSnippet_accepted p newId w :
  (CONFIG.MIN_SELECTION_LENGTH ≤ strlen (text p) ≤ CONFIG.MAX_SELECTION_LENGTH)%Z →
  (length (queue w) < CONFIG.MAX_QUEUE_SIZE)%nat →
  handleSaveSnippet p false newId w
  = (inr (ReplyPending newId),
     (processQueueItem_begin FromSubmit (submitted newId (now w) p)
        (set_queue (fun q => q ++ [submitted newId (now w) p]) w)).2).
Proof.
  intros [Hlo Hhi] Hcap. unfold handleSaveSnippet, enqueue.
  rewrite (proj2 (Z.ltb_ge _ _)) by lia.
  destruct (Z.gtb_spec (strlen (text p)) CONFIG.MAX_SELECTION_LENGTH); [lia|].
  destruct (Nat.leb_spec CONFIG.MAX_QUEUE_SIZE (length (queue w))); [lia|].
  reflexivity.
Qed.

Lemma findAttempt_fresh i w :
  guard_inv w → i ∉ processingIds w → findAttempt i w = None.
Proof.
  intros [_ Hset] Hnin. unfold findAttempt.
  destruct (List.find _ (inflight w)) as [a|] eqn:F; [|done].
  apply find_some in F as [Hin Hid].
  apply bool_decide_eq_true in Hid. apply list_elem_of_In in Hin.
  exfalso. apply Hnin, Hset. unfold inflightIds. apply list_elem_of_fmap. eauto.
Qed.

Lemma findAttempt_started by_ item w :
  guard_inv w → id item ∉ processingIds w →
  findAttempt (id item) (processQueueItem_begin by_ item w).2
  = Some (mkAttempt item (now w)).
Proof.
  intros Hinv Hnin. pose proof (findAttempt_fresh _ _ Hinv Hnin) as F.
  rewrite begin_start by done. unfold findAttempt in *; simpl.
  rewrite find_app_None by done. simpl. by rewrite bool_decide_eq_true_2.
Qed.

Lemma dequeue_absent i q it : it ∈ dequeue i q → id it ≠ i.
Proof. unfold dequeue. by intros [H _]%list_elem_of_filter. Qed.



(** ** Reading and writing one entry of the store *)

Lemma entry_Some i q it : entry i q = Some it → it ∈ q ∧ id it = i.
Proof.
  unfold entry. intros F. apply find_some in F as [Hin Hid].
  apply bool_decide_eq_true in Hid. by apply list_elem_of_In in Hin.
Qed.

Lemma entry_None i q it : entry i q = None → it ∈ q → id it ≠ i.
Proof.
  unfold entry. intros F Hin%list_elem_of_In.
  by apply (find_none _ _ F), bool_decide_eq_false in Hin.
Qed.

Lemma entry_elem_of i q it : it ∈ q → id it = i → is_Some (entry i q).
Proof.
  intros Hin Hid. destruct (entry i q) eqn:E; [done|].
  by destruct (entry_None _ _ _ E Hin).
Qed.

Lemma entry_update_same i st err q :
  entry i (updateItemStatus i st err q) = written st err <$> entry i q.
Proof.
  unfold entry, updateItemStatus. induction q as [|it q IH]; [done|].
  rewrite fmap_cons. simpl. case_decide as Hd; simpl.
  - rewrite !bool_decide_eq_true_2 by done. done.
  - rewrite !bool_decide_eq_false_2 by done. apply IH.
Qed.

Lemma entry_update_other i j st err q :
  i ≠ j → entry i (updateItemStatus j st err q) = entry i q.
Proof.
  intros Hne. unfold entry, updateItemStatus. induction q as [|it q IH]; [done|].
  rewrite fmap_cons. simpl. case_decide as Hd; simpl.
  - rewrite !bool_decide_eq_false_2 by congruence. apply IH.
  - by rewrite IH.
Qed.

Lemma entry_dequeue_same i q : entry i (dequeue i q) = None.
Proof.
  destruct (entry i (dequeue i q)) as [it|] eqn:E; [|done].
  apply entry_Some in E as [Hin Hid]. by apply dequeue_absent in Hin.
Qed.

Lemma entry_dequeue_other i j q : i ≠ j → entry i (dequeue j q) = entry i q.
Proof.
  intros Hne. unfold entry, dequeue. induction q as [|it q IH]; [done|].
  rewrite filter_cons. simpl. case_decide as Hd; simpl.
  - by rewrite IH.
  - rewrite bool_decide_eq_false_2 by congruence. apply IH.
Qed.

Lemma entry_app_Some i q q' it : entry i q = Some it → entry i (q ++ q') = Some it.
Proof. apply find_app_Some. Qed.

Lemma entry_app_None i q q' : entry i q = None → entry i (q ++ q') = entry i q'.
Proof. apply find_app_None. Qed.

Lemma retryQueueItem_entry i it w :
  entry i (queue w) = Some it → status it = pending ∨ status it = failed →
  retryQueueItem i w = (processQueueItem_begin FromRetry it w).2.
Proof.
  intros E Hst. unfold retryQueueItem, getQueue.
  rewrite E. by rewrite decide_True.
Qed.

Lemma retryQueueItem_idle i w :
  (∀ it, entry i (queue w) = Some it → status it = saving) →
  retryQueueItem i w = w.
Proof.
  intros H. unfold retryQueueItem, getQueue.
  destruct (entry i (queue w)) as [it|]; [|done].
  rewrite decide_False; [done|]. rewrite (H it eq_refl). by intros [|].
Qed.

(** ** Backoff *)

Lemma retryDelay_bounds rc : (0 < retryDelay rc ≤ CONFIG.MAX_RETRY_DELAY_MS)%Z.
Proof.
  unfold retryDelay, CONFIG.MAX_RETRY_DELAY_MS, CONFIG.INITIAL_RETRY_DELAY_MS.
  assert (0 < 2 ^ Z.of_nat rc)%Z by (apply Z.pow_pos_nonneg; lia). lia.
Qed.

Lemma retryDelay_mono rc rc' : (rc ≤ rc')%nat → (retryDelay rc ≤ retryDelay rc')%Z.
Proof.
  intros H. unfold retryDelay, CONFIG.INITIAL_RETRY_DELAY_MS.
  assert (2 ^ Z.of_nat rc ≤ 2 ^ Z.of_nat rc')%Z by (apply Z.pow_le_mono_r; lia).
  lia.
Qed.

(** ** An entry whose delivery keeps failing *)

Lemma find_filter_out (i : string) (l : list Attempt) :
  List.find (fun a => bool_decide (id (att_item a) = i))
    (filter (fun a => id (att_item a) ≠ i) l) = None.
Proof.
  induction l as [|a l IH]; [done|]. rewrite filter_cons.
  case_decide; [|done]. simpl. by rewrite bool_decide_eq_false_2.
Qed.

Lemma step_settled t i res a w :
  findAttempt i w = Some a → (now w ≤ t < att_start a + FETCH_TIMEOUT_MS)%Z →
  step (t, FetchSettled i res) w
  = Some (processQueueItem_settle (att_item a) res (set_now t w)).
Proof.
  intros F Ht. unfold step. rewrite decide_True by lia.
  rewrite (findAttempt_ext i w (set_now t w)), F by done. simpl.
  by rewrite decide_True by lia.
Qed.

(** After a retryable failure with budget left the entry is pending with
    one more retry counted and a timer set; when the timer fires the entry
    is sent again. *)
Lemma retry_cycle i rc res e lat w :
  delivering i rc w → (rc < CONFIG.MAX_RETRIES)%nat →
  attemptOutcome res = inl e → isRetryableError e = true →
  (0 ≤ lat < FETCH_TIMEOUT_MS)%Z →
  let t1 := (now w + lat)%Z in
  let due := (t1 + retryDelay rc)%Z in
  ∃ w1 w2 it1,
    step (t1, FetchSettled i res) w = Some w1
    ∧ entry i (queue w1) = Some it1 ∧ retryCount it1 = S rc ∧ status it1 = pending
    ∧ timers w1 = timers w ++ [(due, i)] ∧ broadcasts w1 = broadcasts w
    ∧ step (due, RetryTimer due i) w1 = Some w2
    ∧ delivering i (S rc) w2
    ∧ requests w2 = requests w ++ [mkRequest due it1 FromRetry]
    ∧ broadcasts w2 = broadcasts w ∧ now w2 = due.
Proof.
  intros [(item & F & Hrc) (it & E & Hirc & Hist)] Hlt Hout Hre Hlat t1 due.
  destruct (findAttempt_Some _ _ _ F) as [_ Hid]. simpl in Hid.
  destruct (settle_retry item res e (set_now t1 w) Hout) as (Hq1 & Ht1 & Hb1);
    [lia|done|].
  destruct (settle_frame item res (set_now t1 w)) as (Hp1 & Hi1 & _ & Hr1 & Hn1).
  assert (Hs1 : step (t1, FetchSettled i res) w
                = Some (processQueueItem_settle item res (set_now t1 w))).
  { rewrite (step_settled t1 i res _ w F); [done|]. simpl. unfold t1. lia. }
  remember (processQueueItem_settle item res (set_now t1 w)) as w1 eqn:Hw1.
  clear Hw1. rewrite Hid, Hrc in *. simpl in Hq1, Ht1, Hb1, Hp1, Hi1, Hr1, Hn1.
  destruct (entry_Some _ _ _ E) as [_ Hidt].
  set (it1 := written pending (Some (Error.message e)) it).
  assert (E1 : entry i (queue w1) = Some it1).
  { by rewrite Hq1, entry_update_same, E. }
  set (w1' := set_timers (remove_one (due, i)) (set_now due w1)).
  assert (Hnin : id it1 ∉ processingIds w1').
  { simpl. rewrite Hp1, Hidt, elem_of_difference, elem_of_singleton. tauto. }
  pose proof (retryDelay_bounds rc) as Hd.
  exists w1, (processQueueItem_begin FromRetry it1 w1').2, it1.
  split.
  { exact Hs1. }
  split; [done|]. split; [by simpl; rewrite Hirc|]. split; [done|].
  split; [done|]. split; [done|]. split.
  { unfold step. rewrite decide_True by (rewrite Hn1; unfold due; lia).
    rewrite decide_True; cycle 1.
    { split; [|lia]. simpl. rewrite Ht1. apply elem_of_app. right.
      apply list_elem_of_singleton. done. }
    f_equal. by apply retryQueueItem_entry; [|left]. }
  rewrite begin_start by done. simpl.
  split; [|by rewrite Hr1, Hb1].
  split.
  - exists it1. split; [|by simpl; rewrite Hirc].
    unfold findAttempt; simpl. rewrite Hi1.
    rewrite find_app_None by apply find_filter_out.
    simpl. by rewrite bool_decide_eq_true_2.
  - exists (written saving None it1). simpl.
    rewrite Hidt, entry_update_same, E1. simpl. by rewrite Hirc.
Qed.

(** A failure that is not retried: the entry is failed in the store, its
    retry count untouched, and the failure is broadcast with its queueId. *)
Lemma final_failure i rc res e lat w :
  delivering i rc w →
  attemptOutcome res = inl e →
  (CONFIG.MAX_RETRIES ≤ rc)%nat ∨ isRetryableError e = false →
  (0 ≤ lat < FETCH_TIMEOUT_MS)%Z →
  ∃ w' it' item st,
    step ((now w + lat)%Z, FetchSettled i res) w = Some w'
    ∧ entry i (queue w') = Some it' ∧ status it' = failed ∧ retryCount it' = rc
    ∧ lastError it' = Some (Error.message e)
    ∧ id item = i
    ∧ broadcasts w' = broadcasts w ++ [failureMessage item e; STATE_UPDATE st]
    ∧ timers w' = timers w ∧ requests w' = requests w.
Proof.
  intros [(item & F & Hrc) (it & E & Hirc & Hist)] Hout Hfin Hlat.
  destruct (findAttempt_Some _ _ _ F) as [_ Hid]. simpl in Hid.
  set (t1 := (now w + lat)%Z).
  destruct (settle_failed item res e (set_now t1 w) Hout) as (Hq1 & Ht1 & Hb1).
  { by rewrite Hrc. }
  destruct (settle_frame item res (set_now t1 w)) as (_ & _ & _ & Hr1 & _).
  exists (processQueueItem_settle item res (set_now t1 w)),
    (written failed (Some (Error.message e)) it), item.
  eexists. split.
  { rewrite (step_settled t1 i res _ w F); [done|]. simpl. unfold t1. lia. }
  rewrite Hq1, Hb1, Ht1, Hr1, Hid. simpl. rewrite entry_update_same, E.
  by repeat split.
Qed.

Lemma length_retryTimes lat t rc n : length (retryTimes lat t rc n) = n.
Proof. revert t rc; induction n as [|n IH]; intros; simpl; [done|]. by rewrite IH. Qed.

Lemma failing_run i res e lat n :
  attemptOutcome res = inl e → isRetryableError e = true →
  (0 ≤ lat < FETCH_TIMEOUT_MS)%Z →
  ∀ rc w,
    (rc + n = CONFIG.MAX_RETRIES)%nat → delivering i rc w →
    ∃ w' it' rs m st,
      run (failingRun i res lat (now w) rc n) w = Some w'
      ∧ entry i (queue w') = Some it'
      ∧ status it' = failed ∧ retryCount it' = CONFIG.MAX_RETRIES
      ∧ requests w' = requests w ++ rs
      ∧ rq_time <$> rs = retryTimes lat (now w) rc n
      ∧ Forall (fun r => rq_by r = FromRetry ∧ id (rq_item r) = i) rs
      ∧ broadcasts w' = broadcasts w ++ [SAVE_RESULT m; STATE_UPDATE st]
      ∧ SaveResult.success m = false ∧ SaveResult.queueId m = Some i.
Proof.
  intros Hout Hre Hlat. induction n as [|n IH]; intros rc w Hn Hdel.
  - destruct (final_failure i rc res e lat w Hdel Hout) as
      (w' & it' & item & st & Hs & E & Hst & Hrc & _ & Hid & Hb & _ & Hr);
      [left; lia|done|].
    exists w', it', []. eexists _, st. simpl. rewrite Hs.
    split; [done|]. split; [done|]. split; [done|]. split; [lia|].
    split; [by rewrite app_nil_r|]. split; [done|]. split; [constructor|].
    split; [exact Hb|]. split; [done|]. simpl. by rewrite Hid.
  - destruct (retry_cycle i rc res e lat w Hdel) as
      (w1 & w2 & it1 & Hs1 & E1 & _ & _ & _ & _ & Hs2 & Hdel2 & Hr2 & Hb2 & Hn2);
      [lia|done|done|done|].
    destruct (IH (S rc) w2) as
      (w' & it' & rs & m & st & Hrun & E & Hst & Hrc & Hr & Hts & Hby & Hb & Hm);
      [lia|done|].
    exists w', it', (mkRequest (now w + lat + retryDelay rc) it1 FromRetry :: rs), m, st.
    rewrite Hn2 in Hrun, Hts.
    split; [by simpl; rewrite Hs1, Hs2|].
    split; [done|]. split; [done|]. split; [done|].
    split; [by rewrite Hr, Hr2, <- app_assoc|].
    split; [by rewrite fmap_cons, Hts|].
    split; [|by rewrite Hb, Hb2].
    constructor; [|done]. simpl. split; [done|].
    by destruct (entry_Some _ _ _ E1).
Qed.

(** C3. When an attempt for an entry in the store ends in a retryable
    failure and the attempt started with fewer than [MAX_RETRIES] retries
    counted, the entry is pending again with one more retry counted, and a
    timer is set [min (1000 * 2 ^ retryCount) 30000] ms ahead, [retryCount]
    being the count the attempt started with; nothing is broadcast.  These
    delays never decrease from one retry to the next and never exceed the
    cap.  And when every request for an entry is answered with the same
    failure, the entry is sent again once per timer, at most
    [MAX_RETRIES - rc] times and exactly so often when the failure is
    retryable, and is then failed with the failure broadcast. *)
Theorem retry_with_backoff i rc res e lat w :
  delivering i rc w →
  attemptOutcome res = inl e →
  (0 ≤ lat < FETCH_TIMEOUT_MS)%Z →
  (∀ item res' e' v it,
     attemptOutcome res' = inl e' → isRetryableError e' = true →
     (retryCount item < CONFIG.MAX_RETRIES)%nat →
     entry (id item) (queue v) = Some it →
     ∃ it1,
       entry (id item) (queue (processQueueItem_settle item res' v)) = Some it1
       ∧ retryCount it1 = S (retryCount it) ∧ status it1 = pending
       ∧ timers (processQueueItem_settle item res' v)
         = timers v
           ++ [((now v
                 + Z.min (CONFIG.INITIAL_RETRY_DELAY_MS * 2 ^ Z.of_nat (retryCount item))
                     CONFIG.MAX_RETRY_DELAY_MS)%Z, id item)]
       ∧ broadcasts (processQueueItem_settle item res' v) = broadcasts v)
  ∧ (∀ k k', (k ≤ k')%nat →
       (retryDelay k ≤ retryDelay k' ≤ CONFIG.MAX_RETRY_DELAY_MS)%Z)
  ∧ (∃ n w' it' rs m st,
       (n ≤ CONFIG.MAX_RETRIES - rc)%nat
       ∧ (isRetryableError e = true → n = (CONFIG.MAX_RETRIES - rc)%nat)
       ∧ run (failingRun i res lat (now w) rc n) w = Some w'
       ∧ entry i (queue w') = Some it'
       ∧ status it' = failed ∧ retryCount it' = (rc + n)%nat
       ∧ requests w' = requests w ++ rs
       ∧ length rs = n
       ∧ rq_time <$> rs = retryTimes lat (now w) rc n
       ∧ Forall (fun r => rq_by r = FromRetry ∧ id (rq_item r) = i) rs
       ∧ broadcasts w' = broadcasts w ++ [SAVE_RESULT m; STATE_UPDATE st]
       ∧ SaveResult.success m = false ∧ SaveResult.queueId m = Some i).
Proof.
  intros Hdel Hout Hlat. split; [|split].
  - intros item res' e' v it Hout' Hre' Hlt' E.
    destruct (settle_retry item res' e' v Hout' Hlt' Hre') as (Hq & Ht & Hb).
    exists (written pending (Some (Error.message e')) it).
    rewrite Hq, entry_update_same, E. repeat split; done.
  - intros k k' Hk. split; [by apply retryDelay_mono|apply retryDelay_bounds].
  - destruct (decide (rc < CONFIG.MAX_RETRIES)%nat) as [Hlt|Hge];
      [destruct (isRetryableError e) eqn:Hre|].
    + destruct (failing_run i res e lat (CONFIG.MAX_RETRIES - rc) Hout Hre Hlat rc w)
        as (w' & it' & rs & m & st & Hrun & E & Hst & Hrc & Hr & Hts & Hby & Hb & Hm);
        [lia|done|].
      assert (Hlen : length rs = (CONFIG.MAX_RETRIES - rc)%nat).
      { by rewrite <- (length_fmap rq_time), Hts, length_retryTimes. }
      destruct Hm. exists (CONFIG.MAX_RETRIES - rc)%nat, w', it', rs, m, st.
      repeat split; try done. lia.
    + destruct (final_failure i rc res e lat w Hdel Hout) as
        (w' & it' & item & st & Hs & E & Hst & Hrc & _ & Hid & Hb & _ & Hr);
        [by right|done|].
      exists 0%nat, w', it', [].
      exists (SaveResult.mk false None (Some (Error.message e)) (text (payload item))
                (Some (id item))), st.
      simpl. rewrite Hs, app_nil_r.
      repeat split; try done; try lia. by rewrite Hid.
    + destruct (final_failure i rc res e lat w Hdel Hout) as
        (w' & it' & item & st & Hs & E & Hst & Hrc & _ & Hid & Hb & _ & Hr);
        [left; lia|done|].
      exists 0%nat, w', it', [].
      exists (SaveResult.mk false None (Some (Error.message e)) (text (payload item))
                (Some (id item))), st.
      simpl. rewrite Hs, app_nil_r.
      repeat split; try done; try lia. by rewrite Hid.
Qed.

(** An accepted submit under a fresh identifier puts the new entry in that
    state, with no failure counted. *)
Lemma delivering_submitted p newId w :
  guard_inv w → newId ∉ processingIds w → entry newId (queue w) = None →
  (CONFIG.MIN_SELECTION_LENGTH ≤ strlen (text p) ≤ CONFIG.MAX_SELECTION_LENGTH)%Z →
  (length (queue w) < CONFIG.MAX_QUEUE_SIZE)%nat →
  delivering newId 0 (handleSaveSnippet p false newId w).2.
Proof.
  intros Hinv Hfresh Hnone Hb Hcap.
  rewrite handleSaveSnippet_accepted by done. simpl.
  set (item := submitted newId (now w) p).
  set (w0 := set_queue (fun q => q ++ [item]) w).
  assert (Hinv0 : guard_inv w0) by (by eapply guard_inv_ext).
  pose proof (findAttempt_started FromSubmit item w0 Hinv0 Hfresh) as F.
  split.
  - exists item. rewrite (proj2 (proj2 (proj2 (begin_frame _ _ _)))). by split.
  - rewrite begin_start by done. simpl.
    exists (written saving None item).
    rewrite entry_update_same, entry_app_None by done.
    unfold entry; simpl. by rewrite bool_decide_eq_true_2.
Qed.

Lemma retry_with_backoff_witness :
  let w := (handleSaveSnippet fox false "q1" (startWorld [] 0)).2 in
  delivering "q1" 0 w
  ∧ ∃ w', run (failingRun "q1" (http 500 None) 10 0 0 3) w = Some w'
          ∧ status <$> entry "q1" (queue w') = Some failed
          ∧ rq_time <$> requests w' = [0; 1010; 3020; 7030]%Z.
Proof.
  intros w.
  assert (Hdel : delivering "q1" 0 w).
  { split.
    - exists (submitted "q1" 0 fox). split; vm_compute; reflexivity.
    - exists (written saving None (submitted "q1" 0 fox)).
      repeat split; vm_compute; reflexivity. }
  split; [exact Hdel|].
  destruct (retry_with_backoff "q1" 0 (http 500 None)
              (Error.mk "Error" "HTTP 500") 10 w Hdel)
    as (_ & _ & n & w' & it' & rs & m & st & _ & Hn & Hrun & _).
  - reflexivity.
  - vm_compute. split; [discriminate|reflexivity].
  - rewrite Hn in Hrun by reflexivity. exists w'. split; [exact Hrun|].
    vm_compute in Hrun. injection Hrun as <-. split; reflexivity.
Defined.

(** ** Discard *)

Lemma entry_update_None i j st err q :
  entry i q = None → entry i (updateItemStatus j st err q) = None.
Proof.
  intros E. destruct (decide (i = j)) as [<-|Hne].
  - by rewrite entry_update_same, E.
  - by rewrite entry_update_other.
Qed.

Lemma entry_dequeue_None i j q : entry i q = None → entry i (dequeue j q) = None.
Proof.
  intros E. destruct (decide (i = j)) as [<-|Hne].
  - apply entry_dequeue_same.
  - by rewrite entry_dequeue_other.
Qed.

Lemma begin_queue by_ item w :
  queue (processQueueItem_begin by_ item w).2 = queue w
  ∨ queue (processQueueItem_begin by_ item w).2
    = updateItemStatus (id item) saving None (queue w).
Proof.
  destruct (decide (id item ∈ processingIds w)).
  - left. by rewrite begin_skip.
  - right. by rewrite begin_start.
Qed.

Lemma settle_queue item res w :
  queue (processQueueItem_settle item res w) = dequeue (id item) (queue w)
  ∨ ∃ st err,
      queue (processQueueItem_settle item res w)
      = updateItemStatus (id item) st err (queue w).
Proof.
  destruct (attemptOutcome res) as [e|sid] eqn:E.
  - right.
    destruct (decide (retryCount item < CONFIG.MAX_RETRIES)%nat) as [Hrc|Hrc];
      [destruct (isRetryableError e) eqn:Hre|].
    + destruct (settle_retry item res e w E) as (-> & _); eauto.
    + destruct (settle_failed item res e w E) as (-> & _); eauto.
    + destruct (settle_failed item res e w E) as (-> & _); [left; lia|eauto].
  - left. by destruct (settle_success item res sid w E) as (-> & _).
Qed.

Lemma begin_absent i by_ item w :
  entry i (queue w) = None → entry i (queue (processQueueItem_begin by_ item w).2) = None.
Proof.
  intros E. destruct (begin_queue by_ item w) as [->| ->]; [done|].
  by apply entry_update_None.
Qed.

Lemma settle_absent i item res w :
  entry i (queue w) = None → entry i (queue (processQueueItem_settle item res w)) = None.
Proof.
  intros E. destruct (settle_queue item res w) as [->|(st & err & ->)].
  - by apply entry_dequeue_None.
  - by apply entry_update_None.
Qed.

Lemma retriesOf_ext i w w' : requests w' = requests w → retriesOf i w' = retriesOf i w.
Proof. unfold retriesOf. by intros ->. Qed.

Lemma retriesOf_begin i by_ item w :
  by_ ≠ FromRetry ∨ id item ≠ i →
  retriesOf i (processQueueItem_begin by_ item w).2 = retriesOf i w.
Proof.
  intros H. unfold retriesOf.
  destruct (begin_requests by_ item w) as [->|[_ ->]]; [done|].
  rewrite filter_app, filter_cons, filter_nil. simpl.
  rewrite decide_False by tauto. by rewrite app_nil_r.
Qed.

Lemma absent_stays i te w w' :
  step te w = Some w' → submits i te.2 = false →
  entry i (queue w) = None →
  entry i (queue w') = None ∧ retriesOf i w' = retriesOf i w.
Proof.
  destruct te as [t e]. intros Hs Hsub E. simpl in Hsub.
  apply step_cases in Hs as [_ Hc].
  assert (E0 : entry i (queue (set_now t w)) = None) by done.
  destruct Hc; try done.
  - apply bool_decide_eq_false in Hsub. split.
    + apply begin_absent. simpl. rewrite entry_app_None by done.
      unfold entry; simpl. by rewrite bool_decide_eq_false_2.
    + rewrite retriesOf_begin; [done|by left].
  - split; [by apply begin_absent|]. rewrite retriesOf_begin; [done|].
    right. subst i0. by eapply entry_None.
  - split; [by apply entry_dequeue_None|done].
  - split; [by apply settle_absent|].
    apply retriesOf_ext. by destruct (settle_frame (att_item a) res (set_now t w)) as (_&_&_&->&_).
  - split; [by apply settle_absent|].
    apply retriesOf_ext.
    by destruct (settle_frame (att_item a) (Rejected abortError) (set_now t w))
      as (_&_&_&->&_).
  - split; [by apply begin_absent|]. rewrite retriesOf_begin; [done|].
    right. subst i0. by eapply entry_None.
  - destruct (wake_frame k item rest (set_now t w)) as (Hq & _ & _ & _ & _ & Hr & _).
    split.
    + rewrite Hq. by apply begin_absent.
    + rewrite (retriesOf_ext _ _ _ Hr). rewrite retriesOf_begin; [done|by left].
Qed.

Lemma absent_run i evs w w' :
  run evs w = Some w' → Forall (fun te => submits i te.2 = false) evs →
  entry i (queue w) = None →
  entry i (queue w') = None ∧ retriesOf i w' = retriesOf i w.
Proof.
  revert w; induction evs as [|te evs IH]; intros w; simpl.
  - by intros [= ->].
  - destruct (step te w) as [w1|] eqn:Hs; [|done].
    intros Hr [Hte Hevs]%Forall_cons E.
    destruct (absent_stays i te w w1 Hs Hte E) as [E1 R1].
    destruct (IH w1 Hr Hevs E1) as [E' R']. split; [done|congruence].
Qed.

Lemma attemptsOn_ext i w w' : requests w' = requests w → attemptsOn i w' = attemptsOn i w.
Proof. unfold attemptsOn. by intros ->. Qed.

Lemma attemptsOn_begin_other i by_ item w :
  id item ≠ i → attemptsOn i (processQueueItem_begin by_ item w).2 = attemptsOn i w.
Proof.
  intros Hne. unfold attemptsOn.
  destruct (begin_requests by_ item w) as [->|[_ ->]]; [done|].
  rewrite filter_app, filter_cons, filter_nil. simpl.
  rewrite decide_False by done. by rewrite app_nil_r.
Qed.

Lemma unlisted_ext i w w' : loops w' = loops w → unlisted i w → unlisted i w'.
Proof. unfold unlisted. by intros ->. Qed.

Lemma resumeLoops_remaining j t ls l :
  l ∈ resumeLoops j t ls → ∃ l0, l0 ∈ ls ∧ remaining l = remaining l0.
Proof.
  unfold resumeLoops. intros (l0 & Hl0 & Hf)%list_elem_of_omap.
  exists l0. split; [done|].
  destruct (phase l0); [by simplify_eq|].
  case_decide; [|by simplify_eq]. destruct (remaining l0) eqn:R; [done|].
  by simplify_eq.
Qed.

Lemma wake_loops k wake item rest w l :
  loops w !! k = Some (mkLoop (Sleeping wake) (item :: rest)) →
  l ∈ loops (processPendingOnStartup_wake k item rest w) →
  ∃ l0, l0 ∈ loops w ∧ ∀ it, it ∈ remaining l → it ∈ remaining l0.
Proof.
  intros Hk. unfold processPendingOnStartup_wake.
  destruct (begin_frame FromStartup item w) as (_ & _ & Hl & _).
  destruct (processQueueItem_begin FromStartup item w) as [started w1].
  simpl in Hl.
  assert (Hins : ∀ x, remaining x = rest → l ∈ <[k:=x]> (loops w) →
                      ∃ l0, l0 ∈ loops w ∧ ∀ it, it ∈ remaining l → it ∈ remaining l0).
  { intros x Hx (j & Hj)%list_elem_of_lookup. rewrite list_lookup_insert in Hj.
    case_decide as Hd.
    - simplify_eq. exists (mkLoop (Sleeping wake) (item :: remaining l)).
      split; [by eapply list_elem_of_lookup_2|]. intros it Hit. by right.
    - exists l. split; [by eapply list_elem_of_lookup_2|done]. }
  destruct started; simpl.
  - rewrite Hl. by apply Hins.
  - destruct rest as [|x rest]; simpl; rewrite Hl.
    + intros Hin%list_elem_of_delete_inv. by exists l.
    + by apply Hins.
Qed.

(** Once an entry is out of the store and out of every snapshot, nothing
    but a submit under its identifier sends a request for it. *)
Lemma gone_stays i te w w' :
  step te w = Some w' → submits i te.2 = false →
  entry i (queue w) = None → unlisted i w →
  unlisted i w' ∧ attemptsOn i w' = attemptsOn i w.
Proof.
  destruct te as [t e]. intros Hs Hsub E U. simpl in Hsub.
  apply step_cases in Hs as [_ Hc].
  assert (U0 : unlisted i (set_now t w)) by done.
  destruct Hc; try done.
  - apply bool_decide_eq_false in Hsub. split.
    + eapply unlisted_ext; [apply begin_frame|done].
    + by rewrite attemptsOn_begin_other.
  - split; [eapply unlisted_ext; [apply begin_frame|done]|].
    rewrite attemptsOn_begin_other; [done|]. subst i0. by eapply entry_None.
  - destruct (settle_frame (att_item a) res (set_now t w)) as (_ & _ & Hl & Hr & _).
    split; [|by apply attemptsOn_ext].
    intros l it Hin Hit. rewrite Hl in Hin.
    apply resumeLoops_remaining in Hin as (l0 & Hl0 & Hrem).
    rewrite Hrem in Hit. by apply (U l0 it).
  - destruct (settle_frame (att_item a) (Rejected abortError) (set_now t w))
      as (_ & _ & Hl & Hr & _).
    split; [|by apply attemptsOn_ext].
    intros l it Hin Hit. rewrite Hl in Hin.
    apply resumeLoops_remaining in Hin as (l0 & Hl0 & Hrem).
    rewrite Hrem in Hit. by apply (U l0 it).
  - split; [eapply unlisted_ext; [apply begin_frame|done]|].
    rewrite attemptsOn_begin_other; [done|]. subst i0. by eapply entry_None.
  - split; [|done]. intros l it [Hin|Hin%list_elem_of_singleton]%elem_of_app Hit.
    + by apply (U l it).
    + subst l. simpl in Hit. eapply entry_None; [exact E|].
      assert (Hg : it ∈ getPendingItems (queue w)) by (by rewrite H).
      by apply list_elem_of_filter in Hg as [_ ?].
  - assert (Hne : id item ≠ i).
    { apply (U (mkLoop (Sleeping wake) (item :: rest)) item);
        [by eapply list_elem_of_lookup_2|left]. }
    destruct (wake_frame k item rest (set_now t w)) as (_ & _ & _ & _ & _ & Hr & _).
    split.
    + intros l it Hin Hit.
      eapply (wake_loops k wake item rest (set_now t w)) in Hin as (l0 & Hl0 & Hsub');
        [|done].
      apply (U l0 it); [done|by apply Hsub'].
    + rewrite (attemptsOn_ext _ _ _ Hr). by rewrite attemptsOn_begin_other.
Qed.

Lemma gone_run i evs w w' :
  run evs w = Some w' → Forall (fun te => submits i te.2 = false) evs →
  entry i (queue w) = None → unlisted i w →
  attemptsOn i w' = attemptsOn i w.
Proof.
  revert w; induction evs as [|te evs IH]; intros w; simpl.
  - by intros [= ->].
  - destruct (step te w) as [w1|] eqn:Hs; [|done].
    intros Hr [Hte Hevs]%Forall_cons E U.
    destruct (absent_stays i te w w1 Hs Hte E) as [E1 _].
    destruct (gone_stays i te w w1 Hs Hte E U) as [U1 A1].
    rewrite <- A1. by apply IH.
Qed.

(** X17. A discard removes the entry from the store.  From then on,
    whatever happens short of a new submit drawing the same identifier,
    the entry stays out of the store and [retryQueueItem] sends nothing for
    it: a retry timer of that entry that fires finds no entry and leaves
    the store, the attempts under way, the requests and the broadcasts as
    they are.  The callback is as idle on an entry that is saving.  And
    if no recovery loop had the entry ahead of it in its snapshot when it
    was discarded, no request at all is sent for it again. *)
Theorem discard_suppresses_retry t i w w0 evs w' :
  step (t, ClearFailed i) w = Some w0 →
  run evs w0 = Some w' →
  Forall (fun te => submits i te.2 = false) evs →
  (∀ it, it ∈ getQueue (queue w0) → id it ≠ i)
  ∧ entry i (queue w') = None
  ∧ retriesOf i w' = retriesOf i w
  ∧ (∀ t' due w'', step (t', RetryTimer due i) w' = Some w'' →
       queue w'' = queue w' ∧ inflight w'' = inflight w'
       ∧ processingIds w'' = processingIds w'
       ∧ requests w'' = requests w' ∧ broadcasts w'' = broadcasts w')
  ∧ (∀ v, (∀ it, entry i (queue v) = Some it → status it = saving) →
          retryQueueItem i v = v)
  ∧ (unlisted i w → attemptsOn i w' = attemptsOn i w).
Proof.
  intros Hs Hr Hevs.
  unfold step in Hs. case_decide; [|done]. simplify_eq.
  assert (E0 : entry i (queue (handleClearFailed i (set_now t w))) = None)
    by apply entry_dequeue_same.
  destruct (absent_run i evs _ _ Hr Hevs E0) as [E' R'].
  split; [intros it; apply dequeue_absent|]. split; [done|]. split; [done|].
  split; [|split].
  - intros t' due w'' Hs'. unfold step in Hs'.
    case_decide; [|done]. case_decide; [|done]. simplify_eq.
    rewrite retryQueueItem_idle; [done|].
    intros it. simpl. by rewrite E'.
  - intros v. apply retryQueueItem_idle.
  - intros U. by rewrite (gone_run i evs _ _ Hr Hevs E0).
Qed.

Lemma discard_suppresses_retry_witness :
  status <$> entry "q1" (queue failedWithTimer) = Some failed
  ∧ (1010%Z, "q1") ∈ timers failedWithTimer
  ∧ ∃ w0 w',
      step (40%Z, ClearFailed "q1") failedWithTimer = Some w0
      ∧ run [(1010%Z, RetryTimer 1010 "q1")] w0 = Some w'
      ∧ entry "q1" (queue w') = None
      ∧ retriesOf "q1" w' = retriesOf "q1" failedWithTimer.
Proof.
  split; [reflexivity|]. split; [vm_compute; apply list_elem_of_here|].
  eexists _, _. split; [vm_compute; reflexivity|].
  split; [vm_compute; reflexivity|].
  match goal with |- entry _ (queue ?w') = _ ∧ _ =>
    destruct (discard_suppresses_retry 40%Z "q1" failedWithTimer
                (handleClearFailed "q1" (set_now 40%Z failedWithTimer))
                [(1010%Z, RetryTimer 1010 "q1")] w')
      as (_ & E & R & _)
  end.
  - vm_compute. reflexivity.
  - vm_compute. reflexivity.
  - repeat constructor.
  - split; [exact E|exact R].
Defined.

(** C7. The code breaks the claim where a recovery is under way: the loop
    of [processPendingOnStartup] hands the entries of its snapshot to
    [processQueueItem] without looking them up again, as [retryQueueItem]
    does.  Two failed entries are left by a previous run; the recovery
    sends the first; the second is discarded while the loop waits, and is
    out of the store; the first is answered 400; the loop then sends the
    discarded entry, 1100 ms after the start, and when that request is
    answered 201 a success is broadcast for it. *)
Theorem discarded_entry_sent_by_recovery :
  ∃ w1 w2 w3,
    run [(0%Z, Startup); (500%Z, LoopWake 0)] (startWorld twoFailed 0) = Some w1
    ∧ status <$> entry "b" (queue w1) = Some failed
    ∧ step (550%Z, ClearFailed "b") w1 = Some w2
    ∧ entry "b" (queue w2) = None
    ∧ attemptsOn "b" w2 = []
    ∧ run [(600%Z, FetchSettled "a" (http 400 None));
           (1100%Z, LoopWake 0);
           (1200%Z, FetchSettled "b"
                      (Resolved (Response.mk 201 (Json None (Some "s1")))))] w2
      = Some w3
    ∧ rq_time <$> attemptsOn "b" w3 = [1100%Z]
    ∧ rq_by <$> attemptsOn "b" w3 = [FromStartup]
    ∧ successCount "b" w3 = 1%nat.
Proof.
  eexists _, _, _.
  split; [vm_compute; reflexivity|].
  split; [vm_compute; reflexivity|].
  split; [vm_compute; reflexivity|].
  split; [vm_compute; reflexivity|].
  split; [vm_compute; reflexivity|].
  split; [vm_compute; reflexivity|].
  split; [vm_compute; reflexivity|].
  split; vm_compute; reflexivity.
Qed.

(** ** Final failure *)

Lemma attemptsOn_begin i by_ item w :
  (length (attemptsOn i w) ≤ length (attemptsOn i (processQueueItem_begin by_ item w).2))%nat
  ∧ (length (attemptsOn i (processQueueItem_begin by_ item w).2) = length (attemptsOn i w) →
     id item ≠ i ∨ processQueueItem_begin by_ item w = (false, w)).
Proof.
  destruct (decide (id item ∈ processingIds w)) as [Hin|Hnin].
  { rewrite begin_skip by done. split; [done|by right]. }
  rewrite begin_start by done. unfold attemptsOn; simpl.
  rewrite filter_app, length_app, filter_cons, filter_nil. simpl.
  case_decide; simpl; [split; [lia|intros; lia]|]. split; [lia|by left].
Qed.

Lemma attemptsOn_step i te w w' :
  step te w = Some w' → (length (attemptsOn i w) ≤ length (attemptsOn i w'))%nat.
Proof.
  destruct te as [t e]. intros Hs. apply step_cases in Hs as [_ Hc].
  destruct Hc; try done;
    try (by match goal with |- context [processQueueItem_begin ?b ?it ?v] =>
              apply (proj1 (attemptsOn_begin i b it v)) end).
  - by rewrite (attemptsOn_ext i _ _
       (proj1 (proj2 (proj2 (proj2 (settle_frame _ _ _)))))).
  - by rewrite (attemptsOn_ext i _ _
       (proj1 (proj2 (proj2 (proj2 (settle_frame _ _ _)))))).
  - destruct (wake_frame k item rest (set_now t w)) as (_ & _ & _ & _ & _ & Hr & _).
    rewrite (attemptsOn_ext _ _ _ Hr).
    apply (proj1 (attemptsOn_begin i FromStartup item (set_now t w))).
Qed.

Lemma attemptsOn_run i evs w w' :
  run evs w = Some w' → (length (attemptsOn i w) ≤ length (attemptsOn i w'))%nat.
Proof.
  revert w; induction evs as [|te evs IH]; intros w; simpl.
  - by intros [= ->].
  - destruct (step te w) as [w1|] eqn:Hs; [|done]. intros Hr.
    pose proof (attemptsOn_step i te w w1 Hs). pose proof (IH w1 Hr). lia.
Qed.

Lemma resting_ext i it w w' :
  queue w' = queue w → inflight w' = inflight w → resting i it w → resting i it w'.
Proof. unfold resting, findAttempt. by intros -> ->. Qed.

Lemma resting_begin i it by_ item w :
  resting i it w →
  id item ≠ i ∨ processQueueItem_begin by_ item w = (false, w) →
  resting i it (processQueueItem_begin by_ item w).2.
Proof.
  intros [E F] [Hne| ->]; [|done].
  destruct (decide (id item ∈ processingIds w)) as [Hin|Hnin].
  { by rewrite begin_skip. }
  rewrite begin_start by done. split; simpl.
  - by rewrite entry_update_other.
  - unfold findAttempt in *; simpl. rewrite find_app_None by done. simpl.
    by rewrite bool_decide_eq_false_2.
Qed.

Lemma resting_settle i it j a res w :
  resting i it w → findAttempt j w = Some a →
  resting i it (processQueueItem_settle (att_item a) res w).
Proof.
  intros [E F] Fj. destruct (findAttempt_Some _ _ _ Fj) as [_ Hid].
  assert (Hne : i ≠ id (att_item a)) by congruence.
  split.
  - destruct (settle_queue (att_item a) res w) as [->|(st & err & ->)].
    + by rewrite entry_dequeue_other.
    + by rewrite entry_update_other.
  - by rewrite findAttempt_settle.
Qed.

Lemma resting_step i it te w w' :
  step te w = Some w' → discards i te.2 = false →
  length (attemptsOn i w') = length (attemptsOn i w) →
  resting i it w → resting i it w'.
Proof.
  destruct te as [t e]. intros Hs Hd Hlen Hrest. simpl in Hd.
  apply step_cases in Hs as [_ Hc].
  assert (R0 : resting i it (set_now t w)) by done.
  destruct Hc; try done.
  - apply resting_begin.
    + destruct R0 as [E F]. split; [|done]. simpl. by apply entry_app_Some.
    + by apply attemptsOn_begin.
  - apply resting_begin; [done|]. by apply attemptsOn_begin.
  - apply bool_decide_eq_false in Hd. destruct R0 as [E F]. split; [|done].
    simpl. by rewrite entry_dequeue_other.
  - by eapply resting_settle.
  - by eapply resting_settle.
  - apply resting_begin; [done|]. by apply attemptsOn_begin.
  - destruct (wake_frame k item rest (set_now t w)) as (Hq & _ & Hi & _ & _ & Hr & _).
    eapply resting_ext; [exact Hq|exact Hi|].
    apply resting_begin; [done|]. apply attemptsOn_begin.
    by rewrite <- (attemptsOn_ext _ _ _ Hr).
Qed.

Lemma resting_run i it evs w w' :
  run evs w = Some w' → Forall (fun te => discards i te.2 = false) evs →
  length (attemptsOn i w') = length (attemptsOn i w) →
  resting i it w → resting i it w'.
Proof.
  revert w; induction evs as [|te evs IH]; intros w; simpl.
  - by intros [= ->].
  - destruct (step te w) as [w1|] eqn:Hs; [|done].
    intros Hr [Hte Hevs]%Forall_cons Hlen Hrest.
    pose proof (attemptsOn_step i te w w1 Hs).
    pose proof (attemptsOn_run i evs w1 w' Hr).
    apply (IH w1); [done|done|lia|].
    eapply resting_step; [done|done|lia|done].
Qed.

Lemma guard_free i w : guard_inv w → findAttempt i w = None → i ∉ processingIds w.
Proof.
  intros [_ Hg] Hf Hin. apply Hg in Hin. unfold inflightIds in Hin.
  apply list_elem_of_fmap in Hin as (a & -> & Ha).
  unfold findAttempt in Hf.
  apply list_elem_of_In in Ha.
  pose proof (find_none _ _ Hf a Ha) as Hb. simpl in Hb.
  by rewrite bool_decide_eq_true_2 in Hb.
Qed.

Lemma attemptsOn_snoc i w w' r :
  requests w' = requests w ++ [r] → id (rq_item r) = i →
  attemptsOn i w' = attemptsOn i w ++ [r].
Proof.
  intros Hr Hid. unfold attemptsOn. rewrite Hr, filter_app.
  by rewrite filter_cons_True, filter_nil.
Qed.




(** X18. A retry timer left pending for an entry that has since failed
    for good (armed by an earlier retryable failure and never cleared)
    sends the entry again when it fires, with no command of the user and
    no recovery: the request carries the entry as the store has it, and
    the entry is written as saving. *)
Theorem leftover_timer_resends i it t due w :
  guard_inv w → resting i it w → status it = failed →
  (due, i) ∈ timers w → (now w ≤ t)%Z → (due ≤ t)%Z →
  ∃ w', step (t, RetryTimer due i) w = Some w'
        ∧ attemptsOn i w' = attemptsOn i w ++ [mkRequest t it FromRetry]
        ∧ status <$> entry i (queue w') = Some saving.
Proof.
  intros Hg [He Hf] Hst Hin Hle Hdue.
  pose proof (guard_free i w Hg Hf) as Hfree.
  pose proof (entry_Some _ _ _ He) as [_ Hid].
  assert (Hst' : status it = pending ∨ status it = failed) by (by right).
  eexists. split.
  { unfold step. rewrite decide_True by done. simpl.
    rewrite decide_True by done. reflexivity. }
  rewrite (retryQueueItem_entry i it) by done.
  rewrite begin_start by (by rewrite Hid). simpl.
  split; [by apply attemptsOn_snoc|].
  by rewrite Hid, entry_update_same, He.
Qed.

Lemma leftover_timer_resends_witness :
  ∃ w', step (1010%Z, RetryTimer 1010 "q1") failedWithTimer = Some w'
        ∧ rq_time <$> attemptsOn "q1" w' = [0; 20; 1010]%Z
        ∧ status <$> entry "q1" (queue w') = Some saving.
Proof.
  assert (Hrun : run [(0%Z, SaveSnippet fox false "q1");
                      (10%Z, FetchSettled "q1" (http 500 None));
                      (20%Z, RetryFailed "q1");
                      (30%Z, FetchSettled "q1" (http 400 None))] (startWorld [] 0)
                 = Some failedWithTimer) by (vm_compute; reflexivity).
  destruct (leftover_timer_resends "q1"
              (mkQueueItem "q1" 0 1 (Some "HTTP 400") failed fox)
              1010%Z 1010%Z failedWithTimer)
    as (w' & Hs & Ha & He).
  - eapply guard_inv_run; [exact Hrun|apply guard_inv_start].
  - split; vm_compute; reflexivity.
  - reflexivity.
  - vm_compute. left.
  - vm_compute. discriminate.
  - lia.
  - exists w'. split; [exact Hs|]. split; [|exact He].
    rewrite Ha, fmap_app. vm_compute. reflexivity.
Defined.




(** ** Recovery at start-up *)

Lemma staggered_snoc gap ts t :
  staggered gap ts → (∀ x, x ∈ ts → (x + gap ≤ t)%Z) → staggered gap (ts ++ [t]).
Proof.
  induction ts as [|x ts IH]; simpl; [by split; [intros ? ?%elem_of_nil|]|].
  intros [Hx Hts] Hall. split.
  - intros t' [Ht'|Ht']%elem_of_app; [by apply Hx|].
    apply list_elem_of_singleton in Ht' as ->. apply Hall. left.
  - apply IH; [done|]. intros y Hy. apply Hall. by right.
Qed.

Lemma startupRequests_ext w w' :
  requests w' = requests w → startupRequests w' = startupRequests w.
Proof. unfold startupRequests. by intros ->. Qed.

Lemma startupRequests_begin by_ item w :
  by_ ≠ FromStartup →
  startupRequests (processQueueItem_begin by_ item w).2 = startupRequests w.
Proof.
  intros H. unfold startupRequests.
  destruct (begin_requests by_ item w) as [->|[_ ->]]; [done|].
  rewrite filter_app, filter_cons, filter_nil. simpl.
  rewrite decide_False by done. by rewrite app_nil_r.
Qed.

Lemma elem_of_remove_one x y l : x ∈ remove_one y l → x ∈ l.
Proof.
  induction l as [|z l IH]; simpl; [done|].
  case_decide; [by right|]. intros [->|Hx]%elem_of_cons; [left|right; auto].
Qed.

Lemma loop_shape_ext tb todo w w' :
  loops w' = loops w → startupRequests w' = startupRequests w →
  (∀ j a, findAttempt j w = Some a → findAttempt j w' = Some a) →
  loop_shape tb todo w → loop_shape tb todo w'.
Proof.
  unfold loop_shape. intros -> -> Hf [H|[H|(j & a & Hl & Ha)]]; [by left|by right; left|].
  right; right. exists j, a. split; [done|]. by apply Hf.
Qed.

(** A step that leaves [processingIds], the attempts, the loops and the
    requests alone, adds no timer and does not turn the clock back. *)
Lemma recovery_inv_ext snapshot tb done todo w w' :
  processingIds w' = processingIds w → inflight w' = inflight w →
  loops w' = loops w → requests w' = requests w →
  (∀ x, x ∈ timers w' → x ∈ timers w) → (now w ≤ now w')%Z →
  recovery_inv snapshot tb done todo w → recovery_inv snapshot tb done todo w'.
Proof.
  intros Hp Hi Hl Hr Ht Hn [].
  pose proof (startupRequests_ext _ _ Hr) as Hsr.
  constructor; rewrite ?Hsr, ?Hp; try done.
  - eapply loop_shape_ext; [done|done| |done].
    intros j a. by rewrite (findAttempt_ext j w w' Hi).
  - intros it Hit. destruct (ri_clear0 it Hit) as [H1 H2]. split; [done|].
    intros due Hd. by apply (H2 due), Ht.
  - by eapply guard_inv_ext.
  - intros r Hr'. specialize (ri_times0 r Hr'). lia.
  - lia.
Qed.

(** An attempt started from another call site, for an entry that is not
    waiting in the snapshot. *)
Lemma recovery_inv_begin snapshot tb done todo by_ item w :
  by_ ≠ FromStartup → (∀ it, it ∈ todo → id it ≠ id item) →
  recovery_inv snapshot tb done todo w →
  recovery_inv snapshot tb done todo (processQueueItem_begin by_ item w).2.
Proof.
  intros Hby Hne [].
  pose proof (startupRequests_begin by_ item w Hby) as Hsr.
  destruct (begin_frame by_ item w) as (_ & Ht & Hl & Hn).
  constructor; rewrite ?Hsr, ?Ht, ?Hn; try done.
  - eapply loop_shape_ext; [done|done| |done].
    intros j a. apply findAttempt_begin.
  - intros it Hit. destruct (ri_clear0 it Hit) as [H1 H2]. split; [|done].
    destruct (decide (id item ∈ processingIds w)).
    + by rewrite begin_skip.
    + rewrite begin_start by done. simpl.
      rewrite elem_of_union, elem_of_singleton. intros [?|?]; [|done].
      by apply (Hne it).
  - by apply guard_inv_begin.
Qed.

Lemma settle_timers item res w x :
  x ∈ timers (processQueueItem_settle item res w) → x ∈ timers w ∨ x.2 = id item.
Proof.
  destruct (attemptOutcome res) as [e|sid] eqn:E.
  - destruct (decide (retryCount item < CONFIG.MAX_RETRIES)%nat) as [Hrc|Hrc];
      [destruct (isRetryableError e) eqn:Hre|].
    + destruct (settle_retry item res e w E) as (_ & -> & _); [done|done|].
      intros [?|Hx%list_elem_of_singleton]%elem_of_app; [by left|by right; subst x].
    + destruct (settle_failed item res e w E) as (_ & -> & _); [by right|by left].
    + destruct (settle_failed item res e w E) as (_ & -> & _); [left; lia|by left].
  - destruct (settle_success item res sid w E) as (_ & -> & _). by left.
Qed.

Lemma resumeLoops_single i t l :
  resumeLoops i t [l]
  = match phase l with
    | Awaiting j =>
        if decide (j = i) then
          match remaining l with
          | [] => []
          | _ :: _ => [mkLoop (Sleeping (t + 500)%Z) (remaining l)]
          end
        else [l]
    | Sleeping _ => [l]
    end.
Proof.
  unfold resumeLoops. simpl. destruct (phase l); [done|].
  case_decide; [|done]. by destruct (remaining l).
Qed.

(** The end of an attempt that is under way. *)
Lemma recovery_inv_settle snapshot tb done todo a res w :
  a ∈ inflight w →
  recovery_inv snapshot tb done todo w →
  recovery_inv snapshot tb done todo (processQueueItem_settle (att_item a) res w).
Proof.
  intros Ha [].
  destruct (settle_frame (att_item a) res w) as (Hp & Hi & Hl & Hr & Hn).
  pose proof (startupRequests_ext _ _ Hr) as Hsr.
  assert (Hin : id (att_item a) ∈ processingIds w).
  { apply ri_guard0. unfold inflightIds. apply list_elem_of_fmap. eauto. }
  constructor; rewrite ?Hsr, ?Hn; try done.
  - unfold loop_shape in *. rewrite Hsr, Hl.
    destruct ri_loop0 as [[-> ->]|[(wake & -> & H)|(j & a' & -> & Hj)]].
    + by left.
    + right; left. exists wake. by rewrite resumeLoops_single.
    + rewrite resumeLoops_single. simpl. case_decide as Hja.
      2: { right; right. exists j, a'. split; [done|].
           rewrite findAttempt_settle by congruence. done. }
      destruct todo as [|x todo]; [by left|].
      right; left. exists (now w + 500)%Z. split; [done|]. split; [done|].
      split; [lia|]. intros r Hr'. specialize (ri_times0 r Hr'). lia.
  - intros it Hit. destruct (ri_clear0 it Hit) as [H1 H2]. split.
    + rewrite Hp, elem_of_difference. tauto.
    + intros due [Hd|Hd]%settle_timers; [by apply (H2 due)|].
      simpl in Hd. by rewrite Hd in H1.
  - by apply guard_inv_settle.
Qed.

(** A turn of the recovery loop. *)
Lemma recovery_inv_wake snapshot tb done item rest k wake w :
  NoDup (id <$> snapshot) →
  loops w !! k = Some (mkLoop (Sleeping wake) (item :: rest)) → (wake ≤ now w)%Z →
  recovery_inv snapshot tb done (item :: rest) w →
  recovery_inv snapshot tb (done ++ [item]) rest
    (processPendingOnStartup_wake k item rest w).
Proof.
  intros ND Hk Hwake [].
  assert (Hl : loops w = [mkLoop (Sleeping wake) (item :: rest)]
               ∧ k = 0%nat ∧ (tb + 500 ≤ wake)%Z
               ∧ ∀ r, r ∈ startupRequests w → (rq_time r + 500 ≤ wake)%Z).
  { destruct ri_loop0 as [[? ?]|[(wake' & Hl & _ & H1 & H2)|(j & a' & Hl & _)]];
      [done| |].
    - rewrite Hl in Hk. destruct k; [|done]. simpl in Hk.
      assert (wake' = wake) as -> by congruence. by repeat split.
    - rewrite Hl in Hk. by destruct k. }
  destruct Hl as (Hl & -> & Htb & Hgap).
  destruct (ri_clear0 item) as [Hnin Hnt]; [left|].
  assert (Hrest : ∀ it, it ∈ rest → id it ≠ id item).
  { intros it Hit Heq. rewrite ri_split0, fmap_app, fmap_cons in ND.
    apply NoDup_app in ND as (_ & _ & ND). apply NoDup_cons in ND as [ND _].
    apply ND. rewrite <- Heq. apply list_elem_of_fmap. eauto. }
  unfold processPendingOnStartup_wake. rewrite begin_start by done.
  assert (Hsr : startupRequests
                  (set_loops (fun ls => <[0%nat:=mkLoop (Awaiting (id item)) rest]> ls)
                     (mkWorld (updateItemStatus (id item) saving None (queue w))
                        ({[id item]} ∪ processingIds w)
                        (inflight w ++ [mkAttempt item (now w)])
                        (timers w) (loops w) (broadcasts w)
                        (requests w ++ [mkRequest (now w) item FromStartup]) (now w)))
                = startupRequests w ++ [mkRequest (now w) item FromStartup]).
  { unfold startupRequests; simpl.
    by rewrite filter_app, filter_cons, filter_nil. }
  constructor; rewrite ?Hsr.
  - by rewrite ri_split0, <- app_assoc.
  - by rewrite fmap_app, ri_done0.
  - right; right. exists (id item), (mkAttempt item (now w)). simpl.
    split; [by rewrite Hl|].
    pose proof (findAttempt_started FromStartup item w ri_guard0 Hnin) as Hfa.
    rewrite begin_start in Hfa by done. exact Hfa.
  - intros it Hit. destruct (ri_clear0 it) as [H1 H2]; [by right|].
    split; [|done]. simpl. rewrite elem_of_union, elem_of_singleton.
    intros [?|?]; [by apply (Hrest it)|done].
  - pose proof (guard_inv_begin FromStartup item w ri_guard0) as G.
    rewrite begin_start in G by done. by eapply guard_inv_ext.
  - intros r [Hr|Hr%list_elem_of_singleton]%elem_of_app; simpl.
    + by apply ri_times0.
    + subst r. simpl. lia.
  - rewrite fmap_app. apply staggered_snoc; [done|].
    intros x (r & -> & Hr)%list_elem_of_fmap. specialize (Hgap r Hr). simpl. lia.
  - done.
Qed.

Lemma recovery_inv_step snapshot tb done todo te w w' :
  NoDup (id <$> snapshot) →
  step te w = Some w' → undisturbed snapshot te.2 = true →
  recovery_inv snapshot tb done todo w →
  ∃ done' todo', recovery_inv snapshot tb done' todo' w'.
Proof.
  destruct te as [t e]. intros ND Hs Hu Hinv. simpl in Hu.
  apply step_cases in Hs as [Hle Hc].
  assert (Hinv0 : recovery_inv snapshot tb done todo (set_now t w)).
  { by apply (recovery_inv_ext _ _ _ _ w). }
  assert (Htodo : ∀ it, it ∈ todo → id it ∈ id <$> snapshot).
  { intros it Hit. apply list_elem_of_fmap. exists it. split; [done|].
    rewrite (ri_split _ _ _ _ _ Hinv). apply elem_of_app. by right. }
  destruct Hc.
  - by exists done, todo.
  - exists done, todo. apply bool_decide_eq_true in Hu.
    apply recovery_inv_begin; [done| |].
    + intros it Hit Heq. apply Hu. simpl in Heq. rewrite <- Heq. by apply Htodo.
    + by apply (recovery_inv_ext _ _ _ _ (set_now t w)).
  - exists done, todo. apply bool_decide_eq_true in Hu.
    apply recovery_inv_begin; [done| |done].
    intros it Hit Heq. apply Hu. subst i. rewrite <- Heq. by apply Htodo.
  - exists done, todo. by apply (recovery_inv_ext _ _ _ _ (set_now t w)).
  - exists done, todo. apply recovery_inv_settle; [|done].
    by destruct (findAttempt_Some _ _ _ H).
  - exists done, todo. apply recovery_inv_settle; [|done].
    by destruct (findAttempt_Some _ _ _ H).
  - exists done, todo. apply (recovery_inv_ext _ _ _ _ (set_now t w)); try done.
    intros x. apply elem_of_remove_one.
  - exists done, todo. apply recovery_inv_begin; [done| |].
    + intros it Hit Heq.
      destruct (ri_clear _ _ _ _ _ Hinv it Hit) as [_ Hnt].
      apply (Hnt due). by rewrite Heq, H2.
    + apply (recovery_inv_ext _ _ _ _ (set_now t w)); try done.
      intros x. apply elem_of_remove_one.
  - done.
  - assert (todo = item :: rest) as ->.
    { destruct (ri_loop _ _ _ _ _ Hinv) as [[Hl ?]|[(wake' & Hl & _)|(j & a' & Hl & _)]];
        rewrite Hl in H; [done| |by destruct k].
      destruct k; [|done]. simpl in H. congruence. }
    exists (done ++ [item]), rest. by eapply recovery_inv_wake.
Qed.

Lemma recovery_inv_run snapshot tb evs :
  NoDup (id <$> snapshot) →
  ∀ done todo w w',
    run evs w = Some w' →
    Forall (fun te => undisturbed snapshot te.2 = true) evs →
    recovery_inv snapshot tb done todo w →
    ∃ done' todo', recovery_inv snapshot tb done' todo' w'.
Proof.
  intros ND. induction evs as [|te evs IH]; intros done todo w w'; simpl.
  - intros [= ->] _ Hinv. eauto.
  - destruct (step te w) as [w1|] eqn:Hs; [|done].
    intros Hr [Hte Hevs]%Forall_cons Hinv.
    destruct (recovery_inv_step _ _ _ _ _ _ _ ND Hs Hte Hinv) as (d1 & t1 & Hinv1).
    by eapply IH.
Qed.

Lemma filter_key_absent {A B} `{EqDecision B} (f : A → B) (c : B) (l : list A) :
  c ∉ f <$> l → filter (fun y => f y = c) l = [].
Proof.
  induction l as [|x l IH]; [done|]. rewrite fmap_cons, not_elem_of_cons.
  intros [Hne Hnin]. rewrite filter_cons, decide_False by done. by apply IH.
Qed.

Lemma filter_key_NoDup {A B} `{EqDecision B} (f : A → B) (c : B) (l : list A) :
  NoDup (f <$> l) →
  (length (filter (fun y => f y = c) l) ≤ 1)%nat
  ∧ (c ∈ f <$> l → length (filter (fun y => f y = c) l) = 1%nat).
Proof.
  induction l as [|x l IH].
  { intros _. split; [simpl; lia|by intros ?%elem_of_nil]. }
  rewrite fmap_cons, NoDup_cons. intros [Hx ND]. rewrite filter_cons.
  destruct (IH ND) as [IH1 IH2]. case_decide as Hc.
  - subst c. rewrite filter_key_absent by done. simpl. split; [lia|done].
  - split; [done|]. intros [?|?]%elem_of_cons; [congruence|by apply IH2].
Qed.

Lemma recovery_inv_startup q t0 t1 w :
  step (t1, Startup) (startWorld q t0) = Some w →
  (t0 ≤ t1)%Z ∧ recovery_inv (getPendingItems q) t1 [] (getPendingItems q) w.
Proof.
  unfold step. simpl. case_decide as Hle; [|done]. intros [= <-]. split; [done|].
  unfold processPendingOnStartup. simpl.
  destruct (getPendingItems q) as [|item rest] eqn:G.
  - constructor; try done.
    + by left.
    + intros it ?%elem_of_nil. done.
    + apply guard_inv_start.
    + intros r ?%elem_of_nil. done.
  - constructor; try done.
    + right; left. exists (t1 + 500)%Z. simpl. repeat split; try done.
      intros r ?%elem_of_nil. done.
    + intros it _. simpl. split; [apply not_elem_of_empty|].
      intros due ?%elem_of_nil. done.
    + apply guard_inv_start.
    + intros r ?%elem_of_nil. done.
Qed.

(** A recovery that is left to itself can always be brought to its end:
    the attempt the loop waits for ends, at the latest by the abort of its
    request, and each pause of the loop ends with a turn that sends the
    next entry. *)
Lemma recovery_await snapshot tb done todo j a w :
  recovery_inv snapshot tb done todo w →
  loops w = [mkLoop (Awaiting j) todo] → findAttempt j w = Some a →
  ∃ w1, step (Z.max (now w) (att_start a + FETCH_TIMEOUT_MS), FetchTimeout j) w = Some w1
        ∧ recovery_inv snapshot tb done todo w1
        ∧ (loops w1 = [] ∨ ∃ wake, loops w1 = [mkLoop (Sleeping wake) todo]).
Proof.
  intros Hinv Hl Hf.
  set (t := Z.max (now w) (att_start a + FETCH_TIMEOUT_MS)).
  pose proof (findAttempt_Some _ _ _ Hf) as [Ha Hid].
  assert (Hf0 : findAttempt j (set_now t w) = Some a) by exact Hf.
  exists (processQueueItem_settle (att_item a) (Rejected abortError) (set_now t w)).
  split.
  { unfold step. rewrite decide_True by lia. rewrite Hf0.
    rewrite decide_True by lia. reflexivity. }
  split.
  { apply recovery_inv_settle; [exact Ha|].
    apply (recovery_inv_ext _ _ _ _ w); try done. simpl. lia. }
  destruct (settle_frame (att_item a) (Rejected abortError) (set_now t w))
    as (_ & _ & -> & _).
  change (loops (set_now t w)) with (loops w). rewrite Hl, resumeLoops_single.
  simpl. rewrite decide_True by done.
  destruct todo; [by left|right; by eexists].
Qed.

Lemma recovery_turn snapshot tb done item rest wake w :
  NoDup (id <$> snapshot) →
  recovery_inv snapshot tb done (item :: rest) w →
  loops w = [mkLoop (Sleeping wake) (item :: rest)] →
  ∃ w1, step (Z.max (now w) wake, LoopWake 0) w = Some w1
        ∧ recovery_inv snapshot tb (done ++ [item]) rest w1
        ∧ loops w1 = [mkLoop (Awaiting (id item)) rest]
        ∧ findAttempt (id item) w1 = Some (mkAttempt item (Z.max (now w) wake))
        ∧ startupRequests w1
          = startupRequests w ++ [mkRequest (Z.max (now w) wake) item FromStartup].
Proof.
  intros ND Hinv Hl.
  set (t := Z.max (now w) wake).
  assert (Hinv0 : recovery_inv snapshot tb done (item :: rest) (set_now t w)).
  { apply (recovery_inv_ext _ _ _ _ w); try done. simpl. lia. }
  assert (Hk : loops (set_now t w) !! 0%nat = Some (mkLoop (Sleeping wake) (item :: rest))).
  { change (loops (set_now t w)) with (loops w). by rewrite Hl. }
  exists (processPendingOnStartup_wake 0 item rest (set_now t w)).
  split.
  { unfold step. rewrite decide_True by lia. rewrite Hk.
    rewrite decide_True by lia. reflexivity. }
  split.
  { eapply recovery_inv_wake; [done|exact Hk|simpl; lia|done]. }
  destruct (ri_clear _ _ _ _ _ Hinv0 item) as [Hfree _]; [left|].
  pose proof (findAttempt_started FromStartup item (set_now t w)
                (ri_guard _ _ _ _ _ Hinv0) Hfree) as Hfa.
  unfold processPendingOnStartup_wake. rewrite begin_start in * by done.
  simpl. change (loops (set_now t w)) with (loops w). rewrite Hl. simpl.
  split; [done|]. split; [exact Hfa|].
  unfold startupRequests. simpl.
  by rewrite filter_app, filter_cons_True, filter_nil.
Qed.

Lemma recovery_completes_rested snapshot tb :
  NoDup (id <$> snapshot) →
  ∀ todo done w,
    recovery_inv snapshot tb done todo w →
    loops w = [] ∨ (∃ wake, loops w = [mkLoop (Sleeping wake) todo]) →
    ∃ evs w',
      Forall (fun te => undisturbed snapshot te.2 = true) evs
      ∧ run evs w = Some w' ∧ loops w' = []
      ∧ recovery_inv snapshot tb snapshot [] w'.
Proof.
  intros ND. induction todo as [|item rest IH]; intros done w Hinv Hl.
  - assert (Hnil : loops w = []).
    { destruct Hl as [Hl|[wake Hl]]; [done|].
      destruct (ri_loop _ _ _ _ _ Hinv) as [[? _]|[(wk & _ & Hne & _)|(j & a & Hl' & _)]];
        [done|done|]. rewrite Hl in Hl'. discriminate Hl'. }
    exists [], w. split; [constructor|]. split; [done|]. split; [done|].
    pose proof (ri_split _ _ _ _ _ Hinv) as Hsp. rewrite app_nil_r in Hsp.
    assert (done = snapshot) as <- by done. exact Hinv.
  - destruct Hl as [Hnil|[wake Hl]].
    { destruct (ri_loop _ _ _ _ _ Hinv) as [[_ ?]|[(wk & Hl' & _)|(j & a & Hl' & _)]];
        [done| |]; rewrite Hnil in Hl'; discriminate Hl'. }
    destruct (recovery_turn snapshot tb done item rest wake w ND Hinv Hl)
      as (w1 & Hs1 & Hinv1 & Hl1 & Hf1 & _).
    destruct (recovery_await snapshot tb (done ++ [item]) rest (id item) _ w1
                Hinv1 Hl1 Hf1) as (w2 & Hs2 & Hinv2 & Hl2).
    destruct (IH (done ++ [item]) w2 Hinv2 Hl2) as (evs & w' & Hevs & Hr & Hend).
    exists ((Z.max (now w) wake, LoopWake 0)
              :: (Z.max (now w1)
                    (att_start (mkAttempt item (Z.max (now w) wake)) + FETCH_TIMEOUT_MS),
                  FetchTimeout (id item)) :: evs), w'.
    split.
    { constructor; [done|]. constructor; [done|]. exact Hevs. }
    split; [|exact Hend]. simpl run. rewrite Hs1. simpl in Hs2 |- *.
    rewrite Hs2. exact Hr.
Qed.

Lemma recovery_completes snapshot tb done todo w :
  NoDup (id <$> snapshot) →
  recovery_inv snapshot tb done todo w →
  ∃ evs w',
    Forall (fun te => undisturbed snapshot te.2 = true) evs
    ∧ run evs w = Some w' ∧ loops w' = []
    ∧ recovery_inv snapshot tb snapshot [] w'.
Proof.
  intros ND Hinv.
  destruct (ri_loop _ _ _ _ _ Hinv) as [[Hl _]|[(wk & Hl & _)|(j & a & Hl & Hf)]].
  - apply (recovery_completes_rested snapshot tb ND todo done w Hinv). by left.
  - apply (recovery_completes_rested snapshot tb ND todo done w Hinv). right. by exists wk.
  - destruct (recovery_await snapshot tb done todo j a w Hinv Hl Hf)
      as (w1 & Hs1 & Hinv1 & Hl1).
    destruct (recovery_completes_rested snapshot tb ND todo done w1 Hinv1 Hl1)
      as (evs & w' & Hevs & Hr & Hend).
    exists ((Z.max (now w) (att_start a + FETCH_TIMEOUT_MS), FetchTimeout j) :: evs), w'.
    split; [constructor; [done|exact Hevs]|].
    split; [|exact Hend]. simpl. by rewrite Hs1.
Qed.

(** C9, as stated, fails: the browser comes back online 200 ms after
    the start-up and [processPendingOnStartup] runs a second time; the
    first loop sends the failed entry at 500, it is answered 400, and the
    second loop sends it again at 700. *)
Lemma recovery_repeated_when_online : ¬ each_resumed_once.
Proof.
  intros H.
  specialize (H leftOver 0%Z 0%Z
    [(200%Z, Startup); (500%Z, LoopWake 0);
     (600%Z, FetchSettled "a" (http 400 None)); (700%Z, LoopWake 1)]
    (default (startWorld [] 0)
       (run [(0%Z, Startup); (200%Z, Startup); (500%Z, LoopWake 0);
             (600%Z, FetchSettled "a" (http 400 None)); (700%Z, LoopWake 1)]
          (startWorld leftOver 0)))
    (mkQueueItem "a" 0 3 (Some "HTTP 500") failed fox)).
  assert (C : (2 ≤ 1)%nat).
  { etransitivity; [|apply H].
    - vm_compute. lia.
    - apply (bool_decide_unpack _). vm_compute. exact I.
    - vm_compute. reflexivity.
    - vm_compute. left. }
  lia.
Qed.

(** C9, amended. A worker loaded over a store whose entries have distinct
    ids runs [processPendingOnStartup] once.  In every run that follows in
    which [processPendingOnStartup] is not started again, the user does not
    retry an entry of the snapshot by hand and no submit draws the
    identifier of one, the loop has sent, at any time, exactly the entries
    of the snapshot (those that were pending or failed, in the order of
    the store) that it no longer holds, none twice, each at least 500 ms
    after the loop began and after the one before; when the loop has ended
    each of them has been sent by it exactly once; at no time are two
    attempts for one entry under way; and the run can always be continued,
    by wake-ups of the loop and ends of requests alone, to the end of the
    loop.  A turn of a loop sends the entry it has reached and waits for
    that attempt, unless an attempt for the entry is under way, in which
    case it sends nothing and goes on to the rest of its snapshot after
    the pause. *)
Theorem startup_recovery q t0 t1 evs w :
  NoDup (id <$> q) →
  run ((t1, Startup) :: evs) (startWorld q t0) = Some w →
  Forall (fun te => undisturbed (getPendingItems q) te.2 = true) evs →
  (∃ todo,
     getPendingItems q = (rq_item <$> startupRequests w) ++ todo
     ∧ ((loops w = [] ∧ todo = []) ∨ ∃ ph, loops w = [mkLoop ph todo]))
  ∧ (∀ i, (length (filter (fun r => id (rq_item r) = i) (startupRequests w)) ≤ 1)%nat)
  ∧ (loops w = [] →
     rq_item <$> startupRequests w = getPendingItems q
     ∧ ∀ it, it ∈ q → status it = pending ∨ status it = failed →
         length (filter (fun r => id (rq_item r) = id it) (startupRequests w)) = 1%nat)
  ∧ staggered 500 (rq_time <$> startupRequests w)
  ∧ (∀ r, r ∈ startupRequests w → (t1 + 500 ≤ rq_time r)%Z)
  ∧ NoDup (inflightIds w)
  ∧ (∃ evs' w',
       Forall (fun te => undisturbed (getPendingItems q) te.2 = true) evs'
       ∧ run evs' w = Some w' ∧ loops w' = []
       ∧ rq_item <$> startupRequests w' = getPendingItems q)
  ∧ (∀ k wake item rest t v v',
       loops v !! k = Some (mkLoop (Sleeping wake) (item :: rest)) →
       step (t, LoopWake k) v = Some v' →
       if decide (id item ∈ processingIds v)
       then requests v' = requests v
            ∧ loops v'
              = match rest with
                | [] => delete k (loops v)
                | _ :: _ => <[k := mkLoop (Sleeping (t + 500)%Z) rest]> (loops v)
                end
       else requests v' = requests v ++ [mkRequest t item FromStartup]
            ∧ loops v' = <[k := mkLoop (Awaiting (id item)) rest]> (loops v)).
Proof.
  intros NDq Hr Hevs. simpl in Hr.
  destruct (step (t1, Startup) (startWorld q t0)) as [w1|] eqn:Hs; [|done].
  destruct (recovery_inv_startup q t0 t1 w1 Hs) as [_ Hinv1].
  assert (ND : NoDup (id <$> getPendingItems q)).
  { eapply sublist_NoDup; [exact NDq|]. apply fmap_sublist, sublist_filter. }
  destruct (recovery_inv_run _ t1 evs ND _ _ _ _ Hr Hevs Hinv1)
    as (done & todo & Hinv).
  destruct (recovery_completes _ t1 done todo w ND Hinv)
    as (evs' & w' & Hevs' & Hr' & Hl' & Hinv').
  pose proof (ri_split _ _ _ _ _ Hinv) as ri_split0.
  pose proof (ri_done _ _ _ _ _ Hinv) as ri_done0.
  pose proof (ri_loop _ _ _ _ _ Hinv) as ri_loop0.
  pose proof (ri_guard _ _ _ _ _ Hinv) as ri_guard0.
  pose proof (ri_times _ _ _ _ _ Hinv) as ri_times0.
  pose proof (ri_stag _ _ _ _ _ Hinv) as ri_stag0.
  assert (NDr : NoDup ((fun r => id (rq_item r)) <$> startupRequests w)).
  { rewrite (list_fmap_compose rq_item id), ri_done0.
    rewrite ri_split0, fmap_app in ND. by apply NoDup_app in ND as (? & _). }
  split; [|split; [|split; [|split; [|split; [|split; [|split]]]]]].
  - exists todo. rewrite ri_done0. split; [done|].
    destruct ri_loop0 as [?|[(wake & Hl & _)|(j & a & Hl & _)]];
      [by left|right; by eexists|right; by eexists].
  - intros i. by apply filter_key_NoDup.
  - intros Hl.
    assert (todo = []) as ->.
    { destruct ri_loop0 as [[_ ?]|[(wake & Hl0 & _)|(j & a' & Hl0 & _)]]; [done| |];
        rewrite Hl in Hl0; done. }
    rewrite app_nil_r in ri_split0. split; [congruence|].
    intros it Hit Hst. apply filter_key_NoDup; [done|].
    rewrite (list_fmap_compose rq_item id), ri_done0, <- ri_split0.
    apply list_elem_of_fmap. exists it. split; [done|].
    by apply list_elem_of_filter.
  - done.
  - intros r Hr0. by apply ri_times0.
  - apply ri_guard0.
  - exists evs', w'. split; [done|]. split; [done|]. split; [done|].
    apply (ri_done _ _ _ _ _ Hinv').
  - intros k wake item rest t v v' Hk Hsv.
    unfold step in Hsv. case_decide; [|done].
    change (loops (set_now t v)) with (loops v) in Hsv. rewrite Hk in Hsv.
    case_decide; [|done]. injection Hsv as <-.
    unfold processPendingOnStartup_wake.
    change (processingIds v) with (processingIds (set_now t v)).
    case_decide as Hin.
    + rewrite begin_skip by done. by destruct rest.
    + rewrite begin_start by done. done.
Qed.

Lemma startup_recovery_witness :
  ∃ w,
    run [(0%Z, Startup);
         (500%Z, LoopWake 0); (600%Z, FetchSettled "a" (http 400 None));
         (1100%Z, LoopWake 0);
         (1200%Z, FetchSettled "b" (Resolved (Response.mk 201 (Json None (Some "s1")))))]
      (startWorld leftOver 0) = Some w
    ∧ loops w = []
    ∧ rq_item <$> startupRequests w = getPendingItems leftOver
    ∧ rq_time <$> startupRequests w = [500; 1100]%Z.
Proof.
  eexists. split; [vm_compute; reflexivity|].
  split; [reflexivity|]. split; [|reflexivity].
  match goal with |- rq_item <$> startupRequests ?w = _ =>
    destruct (startup_recovery leftOver 0%Z 0%Z
                [(500%Z, LoopWake 0); (600%Z, FetchSettled "a" (http 400 None));
                 (1100%Z, LoopWake 0);
                 (1200%Z, FetchSettled "b"
                            (Resolved (Response.mk 201 (Json None (Some "s1")))))]
                w) as (_ & _ & Hend & _)
  end.
  - apply (bool_decide_unpack _). vm_compute. exact I.
  - vm_compute. reflexivity.
  - repeat constructor.
  - apply Hend. reflexivity.
Defined.

(** * Further properties of the worker *)

(** ** Failing responses *)

(** X1. For a response outside 200..299 with a three-digit status, whose
    body is a JSON value other than [null] with no [error] field or an
    empty one, the error thrown reads [HTTP <status>], and
    [isRetryableError] accepts it exactly for the statuses 500..599. *)
Theorem bare_status_classification st error :
  (100 ≤ st ≤ 999)%nat → ¬ (200 ≤ st ≤ 299)%nat →
  error = None ∨ error = Some "" →
  ∃ e, attemptOutcome (http st error) = inl e
       ∧ Error.message e = "HTTP " +:+ pretty st
       ∧ (isRetryableError e = true ↔ (500 ≤ st ≤ 599)%nat).
Proof.
  intros Hst Hok Herr.
  assert (A : forallb (fun s =>
                forallb (fun err =>
                  ((200 <=? s)%nat && (s <=? 299)%nat)
                  || match attemptOutcome (http s err) with
                     | inl e =>
                         bool_decide (Error.message e = "HTTP " +:+ pretty s)
                         && Bool.eqb (isRetryableError e)
                              ((500 <=? s)%nat && (s <=? 599)%nat)
                     | inr _ => false
                     end) [None; Some ""]) (seq 100 900) = true)
    by (vm_compute; reflexivity).
  rewrite forallb_forall in A.
  assert (Hseq : In st (seq 100 900)) by (apply in_seq; lia).
  apply A in Hseq. clear A. rename Hseq into A.
  rewrite forallb_forall in A. specialize (A error).
  assert (Hin : In error [None; Some ""]).
  { destruct Herr as [-> | ->]; simpl; auto. }
  apply A in Hin. clear A.
  apply orb_true_iff in Hin as [Hin|Hin].
  { apply andb_true_iff in Hin as [H1 H2].
    apply Nat.leb_le in H1, H2. lia. }
  destruct (attemptOutcome (http st error)) as [e|]; [|discriminate].
  apply andb_true_iff in Hin as [H1 H2].
  apply bool_decide_eq_true in H1. apply Bool.eqb_prop in H2.
  exists e. split; [reflexivity|]. split; [exact H1|].
  rewrite H2, andb_true_iff, !Nat.leb_le. tauto.
Qed.

Lemma bare_status_classification_witness :
  ∃ e, attemptOutcome (http 503 None) = inl e
       ∧ Error.message e = "HTTP " +:+ pretty 503%nat
       ∧ (isRetryableError e = true ↔ (500 ≤ 503 ≤ 599)%nat).
Proof. apply (bare_status_classification 503 None); [lia | lia | by left]. Defined.

(** X2. A failing response whose body is not JSON ends the delivery at
    once, whatever its status and however many retries are left: the
    error is [Unknown error], the entry is written as failed, the failure
    is broadcast, and no timer is armed. *)
Theorem non_json_failure_is_final item r m w :
  Response.ok r = false → Response.body r = NotJson m →
  let e := Error.mk "Error" "Unknown error" in
  let w' := processQueueItem_settle item (Resolved r) w in
  attemptOutcome (Resolved r) = inl e
  ∧ timers w' = timers w
  ∧ queue w' = updateItemStatus (id item) failed (Some "Unknown error") (queue w)
  ∧ broadcasts w'
    = broadcasts w
      ++ [failureMessage item e;
          STATE_UPDATE
            (handleSyncState
               (updateItemStatus (id item) failed (Some "Unknown error") (queue w)))].
Proof.
  intros Hok Hb e w'.
  assert (Ho : attemptOutcome (Resolved r) = inl e).
  { unfold attemptOutcome. rewrite Hok, Hb. reflexivity. }
  split; [exact Ho|].
  destruct (settle_failed item (Resolved r) e w Ho) as (Hq & Ht & Hbr).
  { right. reflexivity. }
  split; [exact Ht|]. split; [exact Hq|exact Hbr].
Qed.

Lemma non_json_failure_is_final_witness :
  let r := Response.mk 502 (NotJson "Unexpected token < in JSON at position 0") in
  let item := submitted "q1" 0 fox in
  let w' := processQueueItem_settle item (Resolved r) (startWorld [item] 0) in
  timers w' = [] ∧ status <$> queue w' = [failed].
Proof.
  intros r item w'.
  destruct (non_json_failure_is_final item r
              "Unexpected token < in JSON at position 0" (startWorld [item] 0))
    as (_ & Ht & Hq & _); [reflexivity | reflexivity |].
  split; [exact Ht|]. subst w'. rewrite Hq. reflexivity.
Defined.

(** ** The backoff *)

(** X3. The delay before a retry is 1000 ms doubled once per retry already
    made, for up to four of them, and 30000 ms from the fifth on; within
    the retry budget the cap is never reached. *)
Theorem retryDelay_closed_form rc :
  retryDelay rc
  = (if (rc <? 5)%nat then 1000 * 2 ^ Z.of_nat rc else 30000)%Z
  ∧ ((rc < CONFIG.MAX_RETRIES)%nat →
     (retryDelay rc = 1000 * 2 ^ Z.of_nat rc ∧ retryDelay rc ≤ 4000)%Z).
Proof.
  assert (Hsmall : ∀ n, (n < 5)%nat → (retryDelay n = 1000 * 2 ^ Z.of_nat n)%Z).
  { intros n Hn.
    destruct n as [|[|[|[|[|n]]]]]; try reflexivity. lia. }
  split.
  - destruct (Nat.ltb_spec rc 5) as [Hlt|Hge]; [by apply Hsmall|].
    unfold retryDelay, CONFIG.INITIAL_RETRY_DELAY_MS, CONFIG.MAX_RETRY_DELAY_MS.
    assert (2 ^ 5 ≤ 2 ^ Z.of_nat rc)%Z by (apply Z.pow_le_mono_r; lia).
    change (2 ^ 5)%Z with 32%Z in *. lia.
  - unfold CONFIG.MAX_RETRIES. intros Hlt.
    split; [apply Hsmall; lia|].
    destruct rc as [|[|[|rc]]]; [by vm_compute..|lia].
Qed.

Lemma retryDelay_closed_form_witness :
  (retryDelay 2 = 1000 * 2 ^ Z.of_nat 2 ∧ retryDelay 2 ≤ 4000)%Z.
Proof.
  apply (retryDelay_closed_form 2). unfold CONFIG.MAX_RETRIES. lia.
Defined.

(** ** The guard *)

Lemma filter_all {A} (P : A → Prop) `{!∀ x, Decision (P x)} (l : list A) :
  Forall P l → filter P l = l.
Proof.
  induction 1 as [|x l Hx _ IH]; [done|].
  by rewrite filter_cons_True, IH.
Qed.

(** X4. However an attempt ends, its [finally] gives the guard back: the
    id of the entry is out of [processingIds], no attempt for it is left
    under way, and the next call of [processQueueItem] for it is not
    skipped.  From a state where the guard was free for the entry, a
    whole attempt leaves [processingIds] and the attempts under way as
    they were. *)
Theorem settle_releases_guard by_ item res w :
  guard_inv w → id item ∉ processingIds w →
  let w1 := (processQueueItem_begin by_ item w).2 in
  let w2 := processQueueItem_settle item res w1 in
  id item ∈ processingIds w1
  ∧ (id item ∉ processingIds w2)
  ∧ findAttempt (id item) w2 = None
  ∧ (∀ by', (processQueueItem_begin by' item w2).1 = true)
  ∧ processingIds w2 = processingIds w
  ∧ inflight w2 = inflight w.
Proof.
  intros [Hnd Hg] Hfree w1 w2.
  assert (E1 : w1 = (processQueueItem_begin by_ item w).2) by reflexivity.
  rewrite (begin_start _ _ _ Hfree) in E1. simpl in E1.
  destruct (settle_frame item res w1) as (Hp & Hi & _).
  fold w2 in Hp, Hi.
  assert (Hout : id item ∉ processingIds w2).
  { rewrite Hp, elem_of_difference, elem_of_singleton. tauto. }
  assert (Hnone : ∀ a, a ∈ inflight w → id (att_item a) ≠ id item).
  { intros a Ha Heq. apply Hfree, Hg. unfold inflightIds.
    apply list_elem_of_fmap. exists a. by split. }
  split.
  { rewrite E1. simpl. apply elem_of_union_l. by apply elem_of_singleton. }
  split; [exact Hout|].
  split.
  { unfold findAttempt. rewrite Hi.
    destruct (List.find _ _) as [a|] eqn:Hf; [|done].
    apply find_some in Hf as [Hin Hb].
    apply bool_decide_eq_true in Hb.
    apply list_elem_of_In, list_elem_of_filter in Hin as [Hne _]. done. }
  split.
  { intros by'. by rewrite (begin_start _ _ _ Hout). }
  split.
  { rewrite Hp, E1. simpl. apply set_eq. intros x.
    rewrite elem_of_difference, elem_of_union, !elem_of_singleton.
    split; [tauto|]. intros Hx. split; [tauto|]. intros ->. done. }
  rewrite Hi, E1. simpl. rewrite filter_app.
  rewrite (filter_all _ (inflight w)).
  - rewrite filter_cons_False; [by rewrite filter_nil, app_nil_r|]. simpl. tauto.
  - apply Forall_forall. intros a Ha. by apply Hnone.
Qed.

Lemma settle_releases_guard_witness :
  let item := submitted "q1" 0 fox in
  let w := startWorld [item] 0 in
  let w2 := processQueueItem_settle item (http 500 None)
              (processQueueItem_begin FromSubmit item w).2 in
  processingIds w2 = processingIds w ∧ inflight w2 = inflight w.
Proof.
  intros item w w2.
  destruct (settle_releases_guard FromSubmit item (http 500 None) w)
    as (_ & _ & _ & _ & Hp & Hi).
  - apply guard_inv_start.
  - apply not_elem_of_empty.
  - split; [exact Hp|exact Hi].
Defined.

(** ** What a step does to the logs *)

Lemma begin_log by_ item w :
  let w' := (processQueueItem_begin by_ item w).2 in
  broadcasts w' = broadcasts w ∧ timers w' = timers w ∧ now w' = now w
  ∧ ((inflight w' = inflight w ∧ requests w' = requests w)
     ∨ (inflight w' = inflight w ++ [mkAttempt item (now w)]
        ∧ requests w' = requests w ++ [mkRequest (now w) item by_])).
Proof.
  intros w'. subst w'.
  destruct (decide (id item ∈ processingIds w)) as [Hin|Hout].
  - rewrite (begin_skip _ _ _ Hin). simpl. repeat split; auto.
  - rewrite (begin_start _ _ _ Hout). simpl. repeat split; auto.
Qed.

Lemma settle_log item res w :
  let w' := processQueueItem_settle item res w in
  (timers w' = timers w
   ∧ ∃ m st, broadcasts w' = broadcasts w ++ [SAVE_RESULT m; STATE_UPDATE st]
             ∧ wellFormedResult m ∧ SaveResult.queueId m = Some (id item))
  ∨ (timers w' = timers w ++ [((now w + retryDelay (retryCount item))%Z, id item)]
     ∧ broadcasts w' = broadcasts w).
Proof.
  intros w'. subst w'.
  destruct (attemptOutcome res) as [e|sid] eqn:Ho.
  - destruct ((retryCount item <? CONFIG.MAX_RETRIES)%nat && isRetryableError e)
      eqn:Hc.
    + apply andb_true_iff in Hc as [H1 H2]. apply Nat.ltb_lt in H1.
      destruct (settle_retry item res e w Ho H1 H2) as (_ & Ht & Hb). by right.
    + apply andb_false_iff in Hc.
      destruct (settle_failed item res e w Ho) as (_ & Ht & Hb).
      { destruct Hc as [H1|H2]; [left; by apply Nat.ltb_ge in H1|by right]. }
      left. split; [done|]. eexists _, _. split; [exact Hb|].
      split; [|done]. split; [by eexists|]. split; [done|].
      intros _. split; [by eexists|done].
  - destruct (settle_success item res sid w Ho) as (_ & Ht & Hb).
    left. split; [done|]. eexists _, _. split; [exact Hb|].
    split; [|done]. split; [by eexists|]. split; [done|]. done.
Qed.

Lemma step_log t e w w' :
  step (t, e) w = Some w' →
  (now w ≤ t)%Z ∧ now w' = t
  ∧ ((broadcasts w' = broadcasts w
      ∧ (∀ x, x ∈ timers w' → x ∈ timers w)
      ∧ ((inflight w' = inflight w ∧ requests w' = requests w)
         ∨ ∃ a r, inflight w' = inflight w ++ [a] ∧ requests w' = requests w ++ [r]))
     ∨ ∃ a, a ∈ inflight w
            ∧ inflight w'
              = filter (fun b => id (att_item b) ≠ id (att_item a)) (inflight w)
            ∧ requests w' = requests w
            ∧ ((timers w' = timers w
                ∧ ∃ m st, broadcasts w'
                          = broadcasts w ++ [SAVE_RESULT m; STATE_UPDATE st]
                          ∧ wellFormedResult m)
               ∨ (timers w'
                  = timers w ++ [((t + retryDelay (retryCount (att_item a)))%Z,
                                  id (att_item a))]
                  ∧ broadcasts w' = broadcasts w))).
Proof.
  intros Hs. pose proof (step_now _ _ _ Hs) as [_ Hnow]. simpl in Hnow.
  apply step_cases in Hs as [Hle Hc].
  split; [done|]. split; [done|]. clear Hnow.
  assert (Hstart : ∀ by_ item w0,
            broadcasts w0 = broadcasts w → (∀ x, x ∈ timers w0 → x ∈ timers w) →
            inflight w0 = inflight w → requests w0 = requests w →
            let w1 := (processQueueItem_begin by_ item w0).2 in
            broadcasts w1 = broadcasts w
            ∧ (∀ x, x ∈ timers w1 → x ∈ timers w)
            ∧ ((inflight w1 = inflight w ∧ requests w1 = requests w)
               ∨ ∃ a r, inflight w1 = inflight w ++ [a]
                        ∧ requests w1 = requests w ++ [r])).
  { intros by_ item w0 Hb Ht Hi Hr w1.
    destruct (begin_log by_ item w0) as (Hb1 & Ht1 & _ & Hir). fold w1 in Hb1, Ht1, Hir.
    split; [congruence|]. split; [rewrite Ht1; exact Ht|].
    destruct Hir as [[-> ->]|[-> ->]]; [left; by split|right].
    rewrite Hi, Hr. by eexists _, _. }
  assert (Hend : ∀ a res, a ∈ inflight w →
            let w1 := processQueueItem_settle (att_item a) res (set_now t w) in
            inflight w1 = filter (fun b => id (att_item b) ≠ id (att_item a)) (inflight w)
            ∧ requests w1 = requests w
            ∧ ((timers w1 = timers w
                ∧ ∃ m st, broadcasts w1
                          = broadcasts w ++ [SAVE_RESULT m; STATE_UPDATE st]
                          ∧ wellFormedResult m)
               ∨ (timers w1
                  = timers w ++ [((t + retryDelay (retryCount (att_item a)))%Z,
                                  id (att_item a))]
                  ∧ broadcasts w1 = broadcasts w))).
  { intros a res Ha w1.
    destruct (settle_frame (att_item a) res (set_now t w)) as (_ & Hi & _ & Hr & _).
    fold w1 in Hi, Hr. split; [exact Hi|]. split; [exact Hr|].
    destruct (settle_log (att_item a) res (set_now t w))
      as [(Ht & m & st & Hb & Hwf & _)|(Ht & Hb)]; fold w1 in Ht, Hb.
    - left. split; [exact Ht|]. by exists m, st.
    - right. by split. }
  destruct Hc.
  - left. simpl. repeat split; auto.
  - left. by apply Hstart.
  - left. by apply Hstart.
  - left. simpl. repeat split; auto.
  - right. exists a. apply findAttempt_Some in H as [Ha _]. split; [done|].
    by apply Hend.
  - right. exists a. apply findAttempt_Some in H as [Ha _]. split; [done|].
    by apply Hend.
  - left. simpl. split; [done|].
    split; [intros x; apply elem_of_remove_one|auto].
  - left. apply Hstart; try done. simpl. intros x. apply elem_of_remove_one.
  - left. simpl. repeat split; auto.
  - left. destruct (wake_frame k item rest (set_now t w))
      as (_ & _ & Hi & Ht & Hb & Hr & _).
    destruct (Hstart FromStartup item (set_now t w)) as (_ & _ & Hir); try done.
    split; [exact Hb|]. split; [rewrite Ht; done|].
    rewrite Hi, Hr. exact Hir.
Qed.

Lemma run_invariant (P : World → Prop) :
  (∀ te w w', step te w = Some w' → P w → P w') →
  ∀ evs w w', run evs w = Some w' → P w → P w'.
Proof.
  intros Hstep evs. induction evs as [|te evs IH]; intros w w'; simpl.
  - by intros [= ->].
  - destruct (step te w) as [w1|] eqn:Hs; [|done].
    intros Hr Hw. eapply IH; [done|]. by eapply Hstep.
Qed.

Lemma orderlyLog_snoc bs m st :
  orderlyLog bs → wellFormedResult m →
  orderlyLog (bs ++ [SAVE_RESULT m; STATE_UPDATE st]).
Proof.
  intros [Hwf Hcount] Hm. split.
  - intros p [Hp|Hp]%elem_of_app; [by apply Hwf|].
    apply elem_of_cons in Hp as [[= ->]|Hp]; [done|].
    apply list_elem_of_singleton in Hp. discriminate Hp.
  - intros n. rewrite take_app, !filter_app, !length_app.
    specialize (Hcount n).
    assert (length (filter (fun x => isStateUpdate x)
                      (take (n - length bs) [SAVE_RESULT m; STATE_UPDATE st]))
            ≤ length (filter (fun x => isResult x)
                        (take (n - length bs) [SAVE_RESULT m; STATE_UPDATE st])))%nat.
    { destruct (n - length bs)%nat as [|[|k]]; simpl; rewrite ?take_nil; simpl; lia. }
    lia.
Qed.

(** X5. Along every run of a freshly loaded worker, every [SAVE_RESULT]
    that has been broadcast names its entry, carries no error when it is
    a success, and carries an error and no snippet id when it is not; and
    up to any point of the log of broadcasts the [STATE_UPDATE]s do not
    outnumber the [SAVE_RESULT]s. *)
Theorem broadcast_log_orderly evs q t0 w :
  run evs (startWorld q t0) = Some w → orderlyLog (broadcasts w).
Proof.
  intros Hr.
  refine (run_invariant (fun w => orderlyLog (broadcasts w)) _ evs _ w Hr _).
  - clear. intros [t e] w1 w2 Hs Hw.
    destruct (step_log _ _ _ _ Hs)
      as (_ & _ & [(-> & _)|(a & _ & _ & _ & [(_ & m & st & -> & Hwf)|(_ & ->)])]);
      [done| |done].
    by apply orderlyLog_snoc.
  - split; [intros p []%elem_of_nil|]. intros n. simpl. rewrite take_nil. simpl. lia.
Qed.

Lemma broadcast_log_orderly_witness :
  ∃ w, run retriedOnce (startWorld [] 0) = Some w
       ∧ length (broadcasts w) = 2%nat ∧ orderlyLog (broadcasts w).
Proof.
  eexists. split; [vm_compute; reflexivity|]. split; [reflexivity|].
  apply (broadcast_log_orderly retriedOnce [] 0%Z). vm_compute. reflexivity.
Defined.

(** X6. Along every run of a freshly loaded worker, the results broadcast
    and the attempts under way together never outnumber the requests
    sent: no result is published that is not the end of a request. *)
Theorem results_answer_requests evs q t0 w :
  run evs (startWorld q t0) = Some w →
  (resultCount w + length (inflight w) ≤ length (requests w))%nat.
Proof.
  intros Hr.
  apply (run_invariant
           (fun w => (resultCount w + length (inflight w) ≤ length (requests w))%nat))
    in Hr; [done| |simpl; lia].
  intros [t e] w1 w2 Hs Hw. unfold resultCount in *.
  destruct (step_log _ _ _ _ Hs) as (_ & _ & [(-> & _ & Hir)|(a & Ha & -> & -> & Hb)]).
  - destruct Hir as [[-> ->]|(a & r & -> & ->)]; [done|].
    rewrite !length_app. simpl. lia.
  - assert (Hlt : (length (filter (fun b => id (att_item b) ≠ id (att_item a))
                             (inflight w1)) < length (inflight w1))%nat).
    { apply (length_filter_lt _ _ a); [done|]. intros Hne. by apply Hne. }
    destruct Hb as [(_ & m & st & -> & _)|(_ & ->)]; [|lia].
    rewrite filter_app, length_app. simpl. lia.
Qed.

Lemma results_answer_requests_witness :
  ∃ w, run retriedOnce (startWorld [] 0) = Some w
       ∧ resultCount w = 1%nat ∧ length (requests w) = 2%nat
       ∧ (resultCount w + length (inflight w) ≤ length (requests w))%nat.
Proof.
  eexists. split; [vm_compute; reflexivity|].
  split; [reflexivity|]. split; [reflexivity|].
  apply (results_answer_requests retriedOnce [] 0%Z). vm_compute. reflexivity.
Defined.

(** X7. Along every run of a freshly loaded worker, no retry timer is
    due more than [MAX_RETRY_DELAY_MS] after the present time. *)
Theorem retry_timers_within_cap evs q t0 w :
  run evs (startWorld q t0) = Some w →
  ∀ due i, (due, i) ∈ timers w → (due ≤ now w + CONFIG.MAX_RETRY_DELAY_MS)%Z.
Proof.
  intros Hr.
  refine (run_invariant
            (fun w => ∀ due i, (due, i) ∈ timers w
                               → (due ≤ now w + CONFIG.MAX_RETRY_DELAY_MS)%Z)
            _ evs _ w Hr _); [|simpl; intros ?? []%elem_of_nil].
  clear. intros [t e] w1 w2 Hs Hw due i Hin.
  destruct (step_log _ _ _ _ Hs)
    as (Hle & -> & [(_ & Ht & _)|(a & _ & _ & _ & [(Ht & _)|(Ht & _)])]).
  - apply Ht, Hw in Hin. lia.
  - rewrite Ht in Hin. apply Hw in Hin. lia.
  - rewrite Ht in Hin. apply elem_of_app in Hin as [Hin|Hin].
    + apply Hw in Hin. lia.
    + apply list_elem_of_singleton in Hin. injection Hin as -> _.
      pose proof (retryDelay_bounds (retryCount (att_item a))). lia.
Qed.

Lemma retry_timers_within_cap_witness :
  ∃ w, run (take 2 retriedOnce) (startWorld [] 0) = Some w
       ∧ timers w = [(1100%Z, "q1")]
       ∧ (1100 ≤ now w + CONFIG.MAX_RETRY_DELAY_MS)%Z.
Proof.
  eexists. split; [vm_compute; reflexivity|]. split; [reflexivity|].
  apply (retry_timers_within_cap (take 2 retriedOnce) [] 0%Z _ eq_refl 1100%Z "q1").
  vm_compute. left.
Defined.

(** ** The summary *)

Lemma length_filter_drop {A} (P : A → Prop) `{!∀ x, Decision (P x)} n (l : list A) :
  (length (filter P (drop n l)) ≤ length (filter P l))%nat.
Proof.
  rewrite <- (take_drop n l) at 2. rewrite filter_app, length_app. lia.
Qed.

(** X8. In the summary handed to control surfaces the listed saves never
    show the status saving, and those shown as pending never outnumber
    [pendingCount]; the two agree whenever the store holds at most ten
    entries. *)
Theorem pendingCount_covers_listed (q : Queue) :
  let state := handleSyncState q in
  let listed :=
    filter (fun r => RecentSave.status r = pending) (StateUpdate.recentSaves state) in
  (length listed ≤ StateUpdate.pendingCount state)%nat
  ∧ ((length q ≤ 10)%nat → length listed = StateUpdate.pendingCount state)
  ∧ ∀ r, r ∈ StateUpdate.recentSaves state → RecentSave.status r ≠ saving.
Proof.
  intros state listed.
  assert (E : ∀ l : Queue,
            length (filter (fun r => RecentSave.status r = pending)
                      ((fun item =>
                          RecentSave.mk (id item)
                            (String.substring 0 100 (text (payload item)))
                            (sourceDomain (payload item))
                            (if decide (status item = saving) then pending
                             else status item)) <$> l))
            = length (filter (fun it => status it = pending ∨ status it = saving) l)).
  { induction l as [|it l IH]; [done|].
    rewrite fmap_cons, !filter_cons. simpl.
    destruct (status it) eqn:Hst; simpl; repeat case_decide; simpl;
      try (rewrite IH; reflexivity); try tauto; try discriminate;
      exfalso; naive_solver. }
  subst listed state. unfold handleSyncState, getQueue. simpl.
  rewrite E. split; [apply length_filter_drop|]. split.
  - intros Hq. unfold slice_last.
    replace (length q - 10)%nat with 0%nat by lia. by rewrite drop_0.
  - intros r (it & -> & _)%list_elem_of_fmap. simpl.
    case_decide; [done|]. done.
Qed.

Lemma pendingCount_covers_listed_witness :
  length (filter (fun r => RecentSave.status r = pending)
            (StateUpdate.recentSaves (handleSyncState leftOver)))
  = StateUpdate.pendingCount (handleSyncState leftOver).
Proof.
  apply (pendingCount_covers_listed leftOver). vm_compute. lia.
Defined.

(** ** Commands of the popup *)

(** X9. A [RETRY_FAILED] message is always answered [{ success: true }].
    It sends a request, and takes the guard, exactly when the store has
    the entry as pending or failed and no attempt for it is under way;
    in every other case it leaves the worker as it was. *)
Theorem retry_command i dup newId w :
  let w' := (onMessage (RETRY_FAILED i) dup newId w).2 in
  (onMessage (RETRY_FAILED i) dup newId w).1 = (true, Some Succeeded)
  ∧ ((∃ it, entry i (queue w) = Some it
            ∧ (status it = pending ∨ status it = failed)
            ∧ (i ∉ processingIds w)
            ∧ requests w' = requests w ++ [mkRequest (now w) it FromRetry]
            ∧ i ∈ processingIds w')
     ∨ (w' = w
        ∧ ¬ ∃ it, entry i (queue w) = Some it
                  ∧ (status it = pending ∨ status it = failed)
                  ∧ (i ∉ processingIds w))).
Proof.
  intros w'. split; [reflexivity|]. subst w'. simpl.
  destruct (entry i (queue w)) as [it|] eqn:He.
  - pose proof (entry_Some _ _ _ He) as [Hin Hid].
    destruct (decide (status it = pending ∨ status it = failed)) as [Hst|Hst].
    + rewrite (retryQueueItem_entry _ _ _ He Hst).
      destruct (decide (i ∈ processingIds w)) as [Hp|Hp].
      * right. rewrite begin_skip by (by rewrite Hid). split; [done|].
        intros (it' & [= <-] & _ & Hn). done.
      * left. exists it. rewrite begin_start by (by rewrite Hid). simpl.
        repeat split; try done.
        apply elem_of_union_l, elem_of_singleton. done.
    + right. split.
      * apply retryQueueItem_idle. intros it' E.
        assert (it' = it) as -> by congruence.
        destruct (status it); [exfalso; apply Hst; by left|done|
                               exfalso; apply Hst; by right].
      * intros (it' & [= <-] & Hst' & _). done.
  - right. split.
    + apply retryQueueItem_idle. intros it' E. congruence.
    + intros (it' & [=] & _).
Qed.

Lemma newBroadcasts_app w w' ms :
  broadcasts w' = broadcasts w ++ ms → newBroadcasts w w' = ms.
Proof. unfold newBroadcasts. intros ->. by rewrite drop_app_length. Qed.

(** X10. Discarding an entry whose request is under way does not cancel
    the request: the attempt stays in flight and keeps the guard, and
    when the request settles its end is handled as for any other entry,
    a success or a final failure being broadcast for the discarded entry
    and a retryable failure arming a retry timer for it. *)
Theorem discard_does_not_cancel t1 t2 i a res w :
  findAttempt i w = Some a →
  (now w ≤ t1 ≤ t2)%Z → (t2 < att_start a + FETCH_TIMEOUT_MS)%Z →
  ∃ w1 w2,
    step (t1, ClearFailed i) w = Some w1
    ∧ findAttempt i w1 = Some a
    ∧ processingIds w1 = processingIds w
    ∧ step (t2, FetchSettled i res) w1 = Some w2
    ∧ match attemptOutcome res with
      | inr sid =>
          newBroadcasts w w2
          = [successMessage (att_item a) sid; STATE_UPDATE (handleSyncState (queue w2))]
          ∧ timers w2 = timers w
      | inl e =>
          if (retryCount (att_item a) <? CONFIG.MAX_RETRIES)%nat && isRetryableError e
          then newBroadcasts w w2 = []
               ∧ timers w2
                 = timers w ++ [((t2 + retryDelay (retryCount (att_item a)))%Z, i)]
          else newBroadcasts w w2
               = [failureMessage (att_item a) e;
                  STATE_UPDATE (handleSyncState (queue w2))]
               ∧ timers w2 = timers w
      end.
Proof.
  intros Hf [Ht1 Ht2] Hto.
  pose proof (findAttempt_Some _ _ _ Hf) as [_ Hid].
  set (w1 := handleClearFailed i (set_now t1 w)).
  assert (Hf1 : findAttempt i w1 = Some a) by exact Hf.
  exists w1, (processQueueItem_settle (att_item a) res (set_now t2 w1)).
  split. { unfold step. by rewrite decide_True. }
  split; [exact Hf1|]. split; [reflexivity|].
  split. { apply step_settled; [exact Hf1|]. simpl. lia. }
  assert (Hb : broadcasts (set_now t2 w1) = broadcasts w) by reflexivity.
  assert (Htm : timers (set_now t2 w1) = timers w) by reflexivity.
  assert (Hn : now (set_now t2 w1) = t2) by reflexivity.
  remember (set_now t2 w1) as w2 eqn:E. clear E.
  destruct (attemptOutcome res) as [e|sid] eqn:Ho.
  - destruct ((retryCount (att_item a) <? CONFIG.MAX_RETRIES)%nat && isRetryableError e)
      eqn:Hc.
    + apply andb_true_iff in Hc as [H1 H2]. apply Nat.ltb_lt in H1.
      destruct (settle_retry (att_item a) res e w2 Ho H1 H2) as (_ & Ht & Hbr).
      split.
      * apply newBroadcasts_app. by rewrite Hbr, Hb, app_nil_r.
      * by rewrite Ht, Htm, Hn, Hid.
    + apply andb_false_iff in Hc.
      destruct (settle_failed (att_item a) res e w2 Ho) as (Hq & Ht & Hbr).
      { destruct Hc as [H1|H2]; [left; by apply Nat.ltb_ge in H1|by right]. }
      split; [|by rewrite Ht].
      apply newBroadcasts_app. by rewrite Hbr, Hb, Hq.
  - destruct (settle_success (att_item a) res sid w2 Ho) as (Hq & Ht & Hbr).
    split; [|by rewrite Ht].
    apply newBroadcasts_app. by rewrite Hbr, Hb, Hq.
Qed.

Lemma discard_does_not_cancel_witness :
  let w := (handleSaveSnippet fox false "q1" (startWorld [] 0)).2 in
  let res := Resolved (Response.mk 201 (Json None (Some "s1"))) in
  ∃ w1 w2,
    step (50%Z, ClearFailed "q1") w = Some w1
    ∧ step (60%Z, FetchSettled "q1" res) w1 = Some w2
    ∧ newBroadcasts w w2
      = [successMessage (submitted "q1" 0 fox) (Some "s1");
         STATE_UPDATE (handleSyncState (queue w2))].
Proof.
  intros w res.
  destruct (discard_does_not_cancel 50%Z 60%Z "q1"
              (mkAttempt (submitted "q1" 0 fox) 0) res w)
    as (w1 & w2 & Hs1 & _ & _ & Hs2 & Hb).
  - vm_compute. reflexivity.
  - change (now w) with 0%Z. lia.
  - simpl. unfold FETCH_TIMEOUT_MS. lia.
  - exists w1, w2. split; [exact Hs1|]. split; [exact Hs2|]. exact (proj1 Hb).
Defined.

(** * Properties of the content script, alone and with the worker *)

Lemma length_substring_0 n s :
  String.length (String.substring 0 n s) = min n (String.length s).
Proof.
  revert n; induction s as [|c s IH]; intros [|n]; simpl; try done.
  by rewrite IH.
Qed.

Lemma or_else_Some s d : s ≠ "" → or_else (Some s) d = s.
Proof. intros H. unfold or_else. by rewrite decide_False. Qed.

(** X11. What [getSelectionWithContext] offers for saving is the trimmed
    text of a selection that is not collapsed, of a length the worker
    accepts, with a context of at most 500 characters; sent to the
    worker, it is refused only as a duplicate or for want of room in the
    store, never for its length. *)
Theorem offered_selection_is_admissible trim selection text0 context metadata
    dup newId w :
  Content.getSelectionWithContext trim selection = Some (text0, context) →
  (CONFIG.MIN_SELECTION_LENGTH ≤ strlen text0 ≤ CONFIG.MAX_SELECTION_LENGTH)%Z
  ∧ (String.length context ≤ 500)%nat
  ∧ (∃ sel, selection = Some sel ∧ Content.isCollapsed sel = false
            ∧ text0 = trim (Content.toString sel))
  ∧ let '(keep, reply, w') :=
      onMessage (Content.saveSelection_message text0 context metadata) dup newId w in
    keep = true
    ∧ ((reply = Some (SaveReplied (ReplyError "This snippet was already saved recently"))
        ∧ dup = true ∧ w' = w)
       ∨ (reply = Some (FailedWith CapacityExceeded) ∧ dup = false
          ∧ (CONFIG.MAX_QUEUE_SIZE ≤ length (queue w))%nat ∧ w' = w)
       ∨ (reply = Some (SaveReplied (ReplyPending newId)) ∧ dup = false
          ∧ (length (queue w) < CONFIG.MAX_QUEUE_SIZE)%nat)).
Proof.
  unfold Content.getSelectionWithContext.
  destruct selection as [sel|]; [|done].
  destruct (Content.isCollapsed sel) eqn:Hc; [done|].
  destruct (Z.ltb_spec (strlen (trim (Content.toString sel)))
              CONFIG.MIN_SELECTION_LENGTH) as [|Hmin]; [done|].
  destruct (Z.gtb_spec (strlen (trim (Content.toString sel)))
              CONFIG.MAX_SELECTION_LENGTH) as [|Hmax]; [done|].
  intros [= <- <-].
  split; [lia|]. split.
  { destruct (Content.blockText sel) as [t|]; [|simpl; lia].
    unfold or_else. case_decide as He; [simpl; lia|].
    rewrite length_substring_0. lia. }
  split; [by exists sel|].
  unfold Content.saveSelection_message, onMessage.
  set (p := mkPayload _ _ _ _ _).
  destruct dup.
  - assert (E : handleSaveSnippet p true newId w
                = (inr (ReplyError "This snippet was already saved recently"), w)).
    { unfold handleSaveSnippet. simpl text.
      destruct (Z.ltb_spec (strlen (trim (Content.toString sel)))
                  CONFIG.MIN_SELECTION_LENGTH); [lia|].
      destruct (Z.gtb_spec (strlen (trim (Content.toString sel)))
                  CONFIG.MAX_SELECTION_LENGTH); [lia|]. done. }
    rewrite E. split; [done|]. by left.
  - destruct (Nat.leb_spec CONFIG.MAX_QUEUE_SIZE (length (queue w))) as [Hfull|Hroom].
    + assert (E : handleSaveSnippet p false newId w = (inl CapacityExceeded, w)).
      { unfold handleSaveSnippet. simpl text.
        destruct (Z.ltb_spec (strlen (trim (Content.toString sel)))
                    CONFIG.MIN_SELECTION_LENGTH); [lia|].
        destruct (Z.gtb_spec (strlen (trim (Content.toString sel)))
                    CONFIG.MAX_SELECTION_LENGTH); [lia|].
        unfold enqueue.
        destruct (Nat.leb_spec CONFIG.MAX_QUEUE_SIZE (length (queue w))); [done|lia]. }
      rewrite E. split; [done|]. right; left. done.
    + rewrite handleSaveSnippet_accepted by (simpl; lia || done).
      split; [done|]. right; right. done.
Qed.

Lemma offered_selection_is_admissible_witness :
  let sel :=
    Content.mkSelection false "The quick brown fox jumps"
      (Some "A paragraph. The quick brown fox jumps over the lazy dog.") in
  (CONFIG.MIN_SELECTION_LENGTH ≤ strlen "The quick brown fox jumps"
   ≤ CONFIG.MAX_SELECTION_LENGTH)%Z.
Proof.
  intros sel.
  apply (offered_selection_is_admissible (fun s => s) (Some sel)
           "The quick brown fox jumps"
           "A paragraph. The quick brown fox jumps over the lazy dog."
           (Content.getPageMetadata "https://www.example.com/a" "A" "www.example.com")
           false "q1" (startWorld [] 0)).
  reflexivity.
Defined.

Lemma showButtonSuccess_frame c :
  Content.pendingSaves (Content.showButtonSuccess c) = Content.pendingSaves c
  ∧ Content.saveButton (Content.showButtonSuccess c) = Content.saveButton c.
Proof.
  unfold Content.showButtonSuccess.
  destruct (Content.saveButton c) eqn:E; simpl; auto.
Qed.

Lemma showButtonError_frame m c :
  Content.pendingSaves (Content.showButtonError m c) = Content.pendingSaves c
  ∧ Content.saveButton (Content.showButtonError m c) = Content.saveButton c.
Proof.
  unfold Content.showButtonError.
  destruct (Content.saveButton c) eqn:E; simpl; auto.
Qed.

(** X12. The listener for results changes the button at most once per
    broadcast, forgets the save the broadcast names, leaves the page alone
    when that save was not registered, and does nothing when the same
    broadcast comes again. *)
Theorem onSaveResult_once m c :
  let c' := Content.onSaveResult m c in
  Content.onSaveResult m c' = c'
  ∧ (length (Content.shown c') ≤ S (length (Content.shown c)))%nat
  ∧ (∀ p q, m = SAVE_RESULT p → SaveResult.queueId p = Some q → q ≠ "" →
            Content.pendingSaves c' !! q = None
            ∧ (Content.pendingSaves c !! q = None → c' = c)).
Proof.
  intros c'. subst c'. unfold Content.onSaveResult.
  destruct m as [p|st]; cycle 1.
  { split; [done|]. split; [lia|]. intros p q Hm. discriminate Hm. }
  destruct (SaveResult.queueId p) as [q|] eqn:Hq; cycle 1.
  { split; [done|]. split; [lia|]. intros p' q' [= <-] Hq'. congruence. }
  destruct (decide (q = "")) as [Hempty|Hne].
  { split; [done|]. split; [lia|]. intros p' q' [= <-] Hq' Hq''. congruence. }
  destruct (Content.pendingSaves c !! q) as [t|] eqn:Hl.
  - set (c1 := Content.mkPage _ _ _).
    assert (Hgone : ∀ c2, Content.pendingSaves c2 = Content.pendingSaves c1 →
                          Content.pendingSaves c2 !! q = None).
    { intros c2 ->. apply lookup_delete_eq. }
    destruct (SaveResult.success p).
    + pose proof (showButtonSuccess_frame c1) as [Hp _].
      rewrite (Hgone _ Hp). split; [done|]. split.
      * unfold Content.showButtonSuccess. destruct (Content.saveButton c1); simpl;
          rewrite ?length_app; simpl; lia.
      * intros p' q' [= <-] Hq' _. rewrite Hq in Hq'. injection Hq' as <-.
        split; [by apply Hgone|]. intros Hnone. congruence.
    + pose proof (showButtonError_frame (or_else (SaveResult.error p) "Failed") c1)
        as [Hp _].
      rewrite (Hgone _ Hp). split; [done|]. split.
      * unfold Content.showButtonError. destruct (Content.saveButton c1); simpl;
          rewrite ?length_app; simpl; lia.
      * intros p' q' [= <-] Hq' _. rewrite Hq in Hq'. injection Hq' as <-.
        split; [by apply Hgone|]. intros Hnone. congruence.
  - rewrite Hl. split; [done|]. split; [lia|].
    intros p' q' [= <-] Hq' _. rewrite Hq in Hq'. injection Hq' as <-. done.
Qed.

Lemma onSaveResult_once_witness :
  let c := Content.mkPage {["q1" := "The quick brown fox jumps"]} true [] in
  let c' := Content.onSaveResult (successMessage (submitted "q1" 0 fox) (Some "s1")) c in
  Content.pendingSaves c' !! "q1" = None
  ∧ Content.shown c' = [Content.ButtonSuccess].
Proof.
  intros c c'. split; [|reflexivity].
  destruct (onSaveResult_once (successMessage (submitted "q1" 0 fox) (Some "s1")) c)
    as (_ & _ & H).
  destruct (H _ "q1" eq_refl eq_refl) as [Hgone _]; [discriminate|exact Hgone].
Defined.

(** X13. A page that was answered pending for a capture is shown the end
    of its delivery and nothing before: [Saved!] when the request
    succeeds, the first 20 characters of the error when the failure is
    final, both with the save forgotten, and nothing, with the save still
    registered, when a retry is scheduled. *)
Theorem page_shown_the_outcome errorText item res w c :
  id item ≠ "" → Content.saveButton c = true →
  let c1 :=
    Content.saveSelection_response errorText (text (payload item))
      (Content.Answered (SaveReplied (ReplyPending (id item)))) c in
  let w' := processQueueItem_settle item res w in
  let c2 := deliver (newBroadcasts w w') c1 in
  Content.shown c1 = Content.shown c
  ∧ match attemptOutcome res with
    | inr _ =>
        Content.shown c2 = Content.shown c ++ [Content.ButtonSuccess]
        ∧ Content.pendingSaves c2 = delete (id item) (Content.pendingSaves c)
    | inl e =>
        if (retryCount item <? CONFIG.MAX_RETRIES)%nat && isRetryableError e
        then c2 = c1
             ∧ Content.pendingSaves c1 !! id item
               = Some (String.substring 0 50 (text (payload item)))
        else Content.shown c2
             = Content.shown c
               ++ [Content.ButtonError
                     (String.substring 0 20 (or_else (Some (Error.message e)) "Failed"))]
             ∧ Content.pendingSaves c2 = delete (id item) (Content.pendingSaves c)
    end.
Proof.
  intros Hid Hbtn c1 w' c2.
  assert (E1 : c1 = Content.mkPage
                      (<[id item := String.substring 0 50 (text (payload item))]>
                         (Content.pendingSaves c))
                      (Content.saveButton c) (Content.shown c)).
  { subst c1. unfold Content.saveSelection_response. by rewrite decide_False. }
  split; [by rewrite E1|].
  assert (Hreg : Content.pendingSaves c1 !! id item
                 = Some (String.substring 0 50 (text (payload item)))).
  { rewrite E1. simpl. apply lookup_insert_eq. }
  assert (Hdel : ∀ m st, SaveResult.queueId m = Some (id item) →
            deliver [SAVE_RESULT m; STATE_UPDATE st] c1
            = let c' := Content.mkPage (delete (id item) (Content.pendingSaves c))
                          true (Content.shown c) in
              if SaveResult.success m then Content.showButtonSuccess c'
              else Content.showButtonError (or_else (SaveResult.error m) "Failed") c').
  { intros m st Hq. unfold deliver. simpl. rewrite Hq.
    rewrite decide_False by done. rewrite Hreg.
    rewrite E1. simpl. rewrite delete_insert_eq, Hbtn. reflexivity. }
  subst c2 w'.
  destruct (attemptOutcome res) as [e|sid] eqn:Ho.
  - destruct ((retryCount item <? CONFIG.MAX_RETRIES)%nat && isRetryableError e) eqn:Hc.
    + apply andb_true_iff in Hc as [H1 H2]. apply Nat.ltb_lt in H1.
      destruct (settle_retry item res e w Ho H1 H2) as (_ & _ & Hb).
      split; [|exact Hreg].
      rewrite (newBroadcasts_app w _ []); [done|]. by rewrite Hb, app_nil_r.
    + apply andb_false_iff in Hc.
      destruct (settle_failed item res e w Ho) as (_ & _ & Hb).
      { destruct Hc as [H1|H2]; [left; by apply Nat.ltb_ge in H1|by right]. }
      rewrite (newBroadcasts_app _ _ _ Hb).
      unfold failureMessage. rewrite Hdel by done. simpl.
      unfold Content.showButtonError. simpl. done.
  - destruct (settle_success item res sid w Ho) as (_ & _ & Hb).
    rewrite (newBroadcasts_app _ _ _ Hb).
    unfold successMessage. rewrite Hdel by done. simpl.
    unfold Content.showButtonSuccess. simpl. done.
Qed.

Lemma page_shown_the_outcome_witness :
  let item := submitted "q1" 0 fox in
  let c := Content.mkPage ∅ true [] in
  let c1 :=
    Content.saveSelection_response (fun _ => "Queue is full") (text (payload item))
      (Content.Answered (SaveReplied (ReplyPending (id item)))) c in
  let w := startWorld [item] 0 in
  let w' := processQueueItem_settle item (http 400 None) w in
  Content.shown (deliver (newBroadcasts w w') c1)
  = [Content.ButtonError "HTTP 400"].
Proof.
  intros item c c1 w w'.
  destruct (page_shown_the_outcome (fun _ => "Queue is full") item (http 400 None) w c)
    as (_ & H); [discriminate | reflexivity |].
  apply (proj1 H).
Defined.

(** X14. Whatever answers and broadcasts reach a page, every error it
    puts on the button has at most 20 characters. *)
Theorem button_labels_short errorText evs button l :
  l ∈ errorLabels (pageRun errorText evs (Content.mkPage ∅ button [])) →
  (String.length l ≤ 20)%nat.
Proof.
  assert (Hshow : ∀ m c,
            (∀ l0, l0 ∈ errorLabels c → (String.length l0 ≤ 20)%nat) →
            ∀ l0, l0 ∈ errorLabels (Content.showButtonError m c) →
                 (String.length l0 ≤ 20)%nat).
  { intros m c Hc l0. unfold Content.showButtonError, errorLabels.
    destruct (Content.saveButton c); [|apply Hc]. simpl.
    rewrite omap_app. intros [Hl|Hl]%elem_of_app; [by apply Hc|].
    simpl in Hl. apply list_elem_of_singleton in Hl. subst l0.
    rewrite length_substring_0. lia. }
  assert (Hok : ∀ c,
            (∀ l0, l0 ∈ errorLabels c → (String.length l0 ≤ 20)%nat) →
            ∀ l0, l0 ∈ errorLabels (Content.showButtonSuccess c) →
                 (String.length l0 ≤ 20)%nat).
  { intros c Hc l0. unfold Content.showButtonSuccess, errorLabels.
    destruct (Content.saveButton c); [|apply Hc]. simpl.
    rewrite omap_app. simpl. rewrite app_nil_r. apply Hc. }
  assert (Hstep : ∀ ev c,
            (∀ l0, l0 ∈ errorLabels c → (String.length l0 ≤ 20)%nat) →
            ∀ l0, l0 ∈ errorLabels (Content.pageStep errorText ev c) →
                 (String.length l0 ≤ 20)%nat).
  { intros ev c Hc. destruct ev as [t d|m]; simpl.
    - unfold Content.saveSelection_response.
      destruct d as [[[q|err]|st| |e]| |]; try done; try (by apply Hshow).
      + case_decide; done.
      + case_decide; [done|by apply Hshow].
    - unfold Content.onSaveResult. destruct m as [p|st]; [|done].
      destruct (SaveResult.queueId p) as [q|]; [|done].
      case_decide; [done|].
      destruct (Content.pendingSaves c !! q); [|done].
      destruct (SaveResult.success p); [apply Hok|apply Hshow]; done. }
  assert (Hrun : ∀ evs0 c,
            (∀ l0, l0 ∈ errorLabels c → (String.length l0 ≤ 20)%nat) →
            ∀ l0, l0 ∈ errorLabels (pageRun errorText evs0 c) →
                  (String.length l0 ≤ 20)%nat).
  { unfold pageRun. induction evs0 as [|ev evs0 IH]; intros c Hc; simpl; [exact Hc|].
    apply IH. by apply Hstep. }
  apply Hrun. intros l0 []%elem_of_nil.
Qed.

Lemma button_labels_short_witness :
  let evs :=
    [Content.GotResponse "too short"
       (Content.Answered
          (SaveReplied (ReplyError "Selection too short (minimum 10 characters)")))] in
  errorLabels (pageRun (fun _ => "Queue is full") evs (Content.mkPage ∅ true []))
  = ["Selection too short "]
  ∧ (String.length "Selection too short " ≤ 20)%nat.
Proof.
  intros evs. split; [reflexivity|].
  apply (button_labels_short (fun _ => "Queue is full") evs true).
  vm_compute. left.
Defined.

(** X15. Broadcasts that name only saves the page has not registered
    leave the page as it was. *)
Theorem foreign_results_ignored ms c :
  (∀ p q, SAVE_RESULT p ∈ ms → SaveResult.queueId p = Some q →
          Content.pendingSaves c !! q = None) →
  deliver ms c = c.
Proof.
  unfold deliver. induction ms as [|m ms IH]; intros H; simpl; [done|].
  assert (E : Content.onSaveResult m c = c).
  { unfold Content.onSaveResult. destruct m as [p|st]; [|done].
    destruct (SaveResult.queueId p) as [q|] eqn:Hq; [|done].
    case_decide; [done|]. rewrite (H p q); [done|by left|done]. }
  rewrite E. apply IH. intros p q Hin. apply H. by right.
Qed.

Lemma foreign_results_ignored_witness :
  ∃ w, run retriedOnce (startWorld [] 0) = Some w
       ∧ length (broadcasts w) = 2%nat
       ∧ deliver (broadcasts w) (Content.mkPage ∅ true []) = Content.mkPage ∅ true [].
Proof.
  eexists. split; [vm_compute; reflexivity|]. split; [reflexivity|].
  apply foreign_results_ignored. intros p q _ _. apply lookup_empty.
Defined.

Lemma handleSaveSnippet_verdict p dup newId w :
  (∃ error, error ≠ ""
            ∧ handleSaveSnippet p dup newId w = (inr (ReplyError error), w))
  ∨ handleSaveSnippet p dup newId w = (inl CapacityExceeded, w)
  ∨ handleSaveSnippet p dup newId w
    = (inr (ReplyPending newId),
       (processQueueItem_begin FromSubmit (submitted newId (now w) p)
          (set_queue (fun q => q ++ [submitted newId (now w) p]) w)).2).
Proof.
  destruct (Z.ltb_spec (strlen (text p)) CONFIG.MIN_SELECTION_LENGTH) as [Hs|Hmin].
  { left. eexists. split; [|unfold handleSaveSnippet].
    2: { destruct (Z.ltb_spec (strlen (text p)) CONFIG.MIN_SELECTION_LENGTH);
           [reflexivity|lia]. }
    discriminate. }
  destruct (Z.gtb_spec (strlen (text p)) CONFIG.MAX_SELECTION_LENGTH) as [Hl|Hmax].
  { left. eexists. split; [|unfold handleSaveSnippet].
    2: { destruct (Z.ltb_spec (strlen (text p)) CONFIG.MIN_SELECTION_LENGTH); [lia|].
         destruct (Z.gtb_spec (strlen (text p)) CONFIG.MAX_SELECTION_LENGTH);
           [reflexivity|lia]. }
    discriminate. }
  destruct dup.
  { left. eexists. split; [|unfold handleSaveSnippet].
    2: { destruct (Z.ltb_spec (strlen (text p)) CONFIG.MIN_SELECTION_LENGTH); [lia|].
         destruct (Z.gtb_spec (strlen (text p)) CONFIG.MAX_SELECTION_LENGTH); [lia|].
         reflexivity. }
    discriminate. }
  destruct (Nat.leb_spec CONFIG.MAX_QUEUE_SIZE (length (queue w))) as [Hfull|Hroom].
  - right; left. unfold handleSaveSnippet.
    destruct (Z.ltb_spec (strlen (text p)) CONFIG.MIN_SELECTION_LENGTH); [lia|].
    destruct (Z.gtb_spec (strlen (text p)) CONFIG.MAX_SELECTION_LENGTH); [lia|].
    unfold enqueue.
    destruct (Nat.leb_spec CONFIG.MAX_QUEUE_SIZE (length (queue w))); [done|lia].
  - right; right. apply handleSaveSnippet_accepted; [lia|done].
Qed.

(** X16. A capture sent from the page is either refused, and then the
    worker is unchanged and the button shows a non-empty error while
    nothing is registered, or answered pending, and then the page
    registers the first 50 characters of the text under the new id, shows
    nothing, and the worker has broadcast nothing yet. *)
Theorem submission_dichotomy errorText p dup newId w c :
  Content.saveButton c = true → newId ≠ "" → (∀ e, errorText e ≠ "") →
  let '(_, reply, w') := onMessage (SAVE_SNIPPET p) dup newId w in
  let c' :=
    Content.saveSelection_response errorText (text p)
      (match reply with
       | Some r => Content.Answered r
       | None => Content.Unanswered
       end) c in
  (w' = w
   ∧ Content.pendingSaves c' = Content.pendingSaves c
   ∧ ∃ label, label ≠ ""
              ∧ Content.shown c' = Content.shown c ++ [Content.ButtonError label])
  ∨ (reply = Some (SaveReplied (ReplyPending newId))
     ∧ newBroadcasts w w' = []
     ∧ Content.shown c' = Content.shown c
     ∧ Content.pendingSaves c'
       = <[newId := String.substring 0 50 (text p)]> (Content.pendingSaves c)).
Proof.
  intros Hbtn Hid Htext. unfold onMessage.
  assert (Hcut : ∀ s, s ≠ "" → String.substring 0 20 s ≠ "").
  { intros [|ch s] Hs; [done|]. simpl. discriminate. }
  destruct (handleSaveSnippet_verdict p dup newId w)
    as [(error & Hne & ->)|[->| ->]].
  - left. split; [done|]. unfold Content.saveSelection_response.
    rewrite or_else_Some by done. unfold Content.showButtonError. rewrite Hbtn. simpl.
    split; [done|]. eexists. split; [|reflexivity]. by apply Hcut.
  - left. split; [done|]. unfold Content.saveSelection_response.
    rewrite decide_False by apply Htext.
    rewrite or_else_Some by apply Htext.
    unfold Content.showButtonError. rewrite Hbtn. simpl.
    split; [done|]. eexists. split; [|reflexivity]. apply Hcut, Htext.
  - right. split; [done|]. split.
    + apply newBroadcasts_app. rewrite app_nil_r.
      by rewrite (proj1 (begin_frame _ _ _)).
    + unfold Content.saveSelection_response. rewrite decide_False by done. done.
Qed.

Lemma submission_dichotomy_witness :
  let c := Content.mkPage ∅ true [] in
  let '(_, reply, w') :=
    onMessage (SAVE_SNIPPET fox) false "q101" (startWorld fullQueue 0) in
  let c' :=
    Content.saveSelection_response (fun _ => "Queue is full") (text fox)
      (match reply with
       | Some r => Content.Answered r
       | None => Content.Unanswered
       end) c in
  (w' = startWorld fullQueue 0
   ∧ Content.pendingSaves c' = Content.pendingSaves c
   ∧ ∃ label, label ≠ ""
              ∧ Content.shown c' = Content.shown c ++ [Content.ButtonError label])
  ∨ (reply = Some (SaveReplied (ReplyPending "q101"))
     ∧ newBroadcasts (startWorld fullQueue 0) w' = []
     ∧ Content.shown c' = Content.shown c
     ∧ Content.pendingSaves c'
       = <["q101" := String.substring 0 50 (text fox)]> (Content.pendingSaves c)).
Proof.
  apply (submission_dichotomy (fun _ => "Queue is full") fox false "q101"
           (startWorld fullQueue 0) (Content.mkPage ∅ true []));
    [reflexivity | discriminate | intros e; discriminate].
Defined.
